(** * go-cache: a generic in-memory cache with TTL and an optional size cap

    A shallow embedding of [cache.go].  The Go map [map[K]*item[V]] is a
    [gmap K (item V)]; [time.Duration] and Unix-nanosecond timestamps are
    [int64] values carried as [Z]; [len] and [maxSize] are [int] values
    carried as [Z] (a map's length is bounded by memory, far below
    [2^63], so [len(c.items)+1] and [len(c.items)+len(m)] do not wrap).
    Every method body runs under the cache's
    [sync.RWMutex] (or is called sequentially), so a method is modelled
    as one atomic state transformer; the clock reading
    [time.Now().UnixNano()] a method takes is its argument [now].

    Go leaves the order of [for ... range] over a map unspecified.  A
    method that ranges over a map therefore receives the sequence the
    runtime produced for that loop as an argument, and the theorems hold
    for every sequence that enumerates the map ([range_of]). *)

From stdpp Require Import gmap strings list fin_maps.
From Stdlib Require Import ZArith Lia.

(** ** Machine integers *)

Definition min_int64 : Z := (- 2 ^ 63)%Z.
Definition max_int64 : Z := (2 ^ 63 - 1)%Z.

(** Two's-complement reduction of an integer to [int64]. *)
Definition wrap64 (z : Z) : Z := ((z + 2 ^ 63) mod 2 ^ 64 - 2 ^ 63)%Z.

(** [time.Now().Add(ttl).UnixNano()], with [now] the clock's Unix time in
    nanoseconds: the sum reduced to [int64] (the [time] package documents
    the result as undefined once the instant leaves the [int64] range;
    its arithmetic wraps). *)
Definition add_unix_nano (now ttl : Z) : Z := wrap64 (now + ttl).

(** ** Channels, as far as [done] is used

    [done] is only ever created ([make]) and closed.  Closing a nil or an
    already closed channel panics. *)

Inductive chan : Type := ChanNil | ChanOpen | ChanClosed.

Definition close (ch : chan) : option chan :=
  match ch with
  | ChanOpen => Some ChanClosed
  | ChanNil | ChanClosed => None
  end.

(** ** Items *)

Record item (V : Type) : Type := Item { value : V; expiration : Z }.
Arguments Item {V} _ _.
Arguments value {V} _.
Arguments expiration {V} _.

(** [func (item item[V]) isExpired(now int64) bool] *)
Definition isExpired {V : Type} (it : item V) (now : Z) : bool :=
  if (expiration it =? 0)%Z then false else (now >? expiration it)%Z.

(** The expiration a write with time-to-live [ttl] stamps on its items:
    [var expiration int64; if ttl > 0 { expiration = time.Now().Add(ttl).UnixNano() }] *)
Definition expiration_for (now ttl : Z) : Z :=
  if (ttl >? 0)%Z then add_unix_nano now ttl else 0%Z.

(** ** The cache structures *)

Record cache (K : Type) `{Countable K} (V : Type) : Type := Build_cache {
  items : gmap K (item V);
  defaultTTL : Z;
  running : bool;
  done : chan
}.
Arguments Build_cache {K _ _ V} _ _ _ _.
Arguments items {K _ _ V} _.
Arguments defaultTTL {K _ _ V} _.
Arguments running {K _ _ V} _.
Arguments done {K _ _ V} _.

(** [cacheWithSize] and [cacheWithoutSize] embed a [*cache]; the pointee is
    carried inside the wrapper. *)
Record cacheWithSize (K : Type) `{Countable K} (V : Type) : Type := Build_cacheWithSize {
  ws_cache : cache K V;
  maxSize : Z
}.
Arguments Build_cacheWithSize {K _ _ V} _ _.
Arguments ws_cache {K _ _ V} _.
Arguments maxSize {K _ _ V} _.

Record cacheWithoutSize (K : Type) `{Countable K} (V : Type) : Type := Build_cacheWithoutSize {
  wos_cache : cache K V
}.
Arguments Build_cacheWithoutSize {K _ _ V} _.
Arguments wos_cache {K _ _ V} _.

(** ** Ranging over a map *)

(** [r] is a sequence a [for k, v := range m] loop may produce: every
    entry of [m] once, in any order. *)
Definition range_of {K : Type} `{Countable K} {A : Type}
    (m : gmap K A) (r : list (K * A)) : Prop :=
  r ≡ₚ map_to_list m.

(** [len(m)] *)
Definition len {K : Type} `{Countable K} {A : Type} (m : gmap K A) : Z :=
  Z.of_nat (size m).

(** ** Methods of [*cache] *)

Section core.
Context {K : Type} `{Countable K} {V : Type}.
(** [*new(V)], the zero value of [V]. *)
Variable zero : V.

Definition set_items (c : cache K V) (m : gmap K (item V)) : cache K V :=
  Build_cache m (defaultTTL c) (running c) (done c).

(** Readers return their results together with the cache they leave. *)
Definition Get (key : K) (c : cache K V) : V * bool * cache K V :=
  match items c !! key with
  | Some it => (value it, true, c)
  | None => (zero, false, c)
  end.

Definition GetSafe (now : Z) (key : K) (c : cache K V) : V * bool * cache K V :=
  match items c !! key with
  | Some it =>
      if negb (isExpired it now) then (value it, true, c)
      else (zero, false, c)
  | None => (zero, false, c)
  end.

Definition GetValue (key : K) (c : cache K V) : V * cache K V :=
  match items c !! key with
  | Some it => (value it, c)
  | None => (zero, c)
  end.

Definition Remove (key : K) (c : cache K V) : cache K V :=
  set_items c (delete key (items c)).

Definition Size (c : cache K V) : Z := len (items c).

Definition IsEmpty (c : cache K V) : bool := (Size c =? 0)%Z.

(** First phase of [CleanExpired]: the keys appended while ranging over
    the items. *)
Definition expired_keys (now : Z) (r : list (K * item V)) : list K :=
  foldl (fun keys p => if isExpired p.2 now then keys ++ [p.1] else keys) [] r.

(** Second phase: [for _, key := range keys { delete(c.items, key) }]. *)
Definition delete_keys (keys : list K) (m : gmap K (item V)) : gmap K (item V) :=
  foldl (fun m key => delete key m) m keys.

Definition CleanExpired (now : Z) (r : list (K * item V)) (c : cache K V) : cache K V :=
  let keys := expired_keys now r in
  set_items c (delete_keys keys (items c)).

(** [Close]; [None] is a panic (of [close(c.done)]). *)
Definition Close (c : cache K V) : option (cache K V) :=
  if running c then
    match close (done c) with
    | Some ch => Some (Build_cache ∅ (defaultTTL c) false ch)
    | None => None
    end
  else Some (set_items c ∅).

Definition resetItems (c : cache K V) : cache K V := set_items c ∅.

(** [n] calls of [Close] in a row. *)
Fixpoint Close_times (n : nat) (c : cache K V) : option (cache K V) :=
  match n with
  | O => Some c
  | S n' => match Close c with
            | Some c' => Close_times n' c'
            | None => None
            end
  end.

(** The items a batch loop [for key, value := range m { c.items[key] = &item{value, expiration} }]
    leaves, [rm] being the sequence the loop ran through. *)
Definition insert_all (expiration : Z) (rm : list (K * V))
    (m : gmap K (item V)) : gmap K (item V) :=
  foldl (fun m p => <[p.1 := Item p.2 expiration]> m) m rm.
End core.

(** ** Write path of the unbounded variant: methods of [*cacheWithoutSize] *)

Module WithoutSize.
Section methods.
Context {K : Type} `{Countable K} {V : Type}.

Definition on_cache (f : cache K V → cache K V)
    (c : cacheWithoutSize K V) : cacheWithoutSize K V :=
  Build_cacheWithoutSize (f (wos_cache c)).

Definition Clear (c : cacheWithoutSize K V) : cacheWithoutSize K V :=
  on_cache resetItems c.

Definition SetWithTTL (now : Z) (key : K) (value : V) (ttl : Z)
    (c : cacheWithoutSize K V) : cacheWithoutSize K V :=
  let expiration := expiration_for now ttl in
  on_cache (fun c => set_items c (<[key := Item value expiration]> (items c))) c.

Definition Set_ (now : Z) (key : K) (value : V)
    (c : cacheWithoutSize K V) : cacheWithoutSize K V :=
  SetWithTTL now key value (defaultTTL (wos_cache c)) c.

Definition SetAllWithTTL (now : Z) (m : gmap K V) (rm : list (K * V)) (ttl : Z)
    (c : cacheWithoutSize K V) : cacheWithoutSize K V :=
  let expiration := expiration_for now ttl in
  on_cache (fun c => set_items c (insert_all expiration rm (items c))) c.

Definition SetAll (now : Z) (m : gmap K V) (rm : list (K * V))
    (c : cacheWithoutSize K V) : cacheWithoutSize K V :=
  SetAllWithTTL now m rm (defaultTTL (wos_cache c)) c.
End methods.
End WithoutSize.

(** ** Write path of the size-bounded variant: methods of [*cacheWithSize] *)

Module WithSize.
Section methods.
Context {K : Type} `{Countable K} {V : Type}.

Definition on_cache (f : cache K V → cache K V)
    (c : cacheWithSize K V) : cacheWithSize K V :=
  Build_cacheWithSize (f (ws_cache c)) (maxSize c).

(** [make(map[K]*item[V], c.maxSize)]: the capacity hint is not observable. *)
Definition resetItems (c : cacheWithSize K V) : cacheWithSize K V :=
  on_cache (fun c => set_items c ∅) c.

Definition Clear (c : cacheWithSize K V) : cacheWithSize K V := resetItems c.

(** [for k := range c.items { delete(c.items, k); break }] *)
Definition evict_first (r : list (K * item V)) (m : gmap K (item V)) : gmap K (item V) :=
  match r with
  | [] => m
  | p :: _ => delete p.1 m
  end.

Definition SetWithTTL (now : Z) (r : list (K * item V)) (key : K) (value : V) (ttl : Z)
    (c : cacheWithSize K V) : cacheWithSize K V :=
  let expiration := expiration_for now ttl in
  let m := items (ws_cache c) in
  let m1 :=
    if (len m + 1 >? maxSize c)%Z then
      match m !! key with
      | None => evict_first r m
      | Some _ => m
      end
    else m in
  on_cache (fun c => set_items c (<[key := Item value expiration]> m1)) c.

Definition Set_ (now : Z) (r : list (K * item V)) (key : K) (value : V)
    (c : cacheWithSize K V) : cacheWithSize K V :=
  SetWithTTL now r key value (defaultTTL (ws_cache c)) c.

(** The eviction loop of [SetAllWithTTL], entered with counter [i]:
    [for k := range c.items { delete(c.items, k); i++; if i >= x || len(c.items) == 0 { break } }].
    A key deleted by the loop is the one just produced, so the rest of
    the sequence is still produced. *)
Fixpoint evict_loop (x : Z) (r : list (K * item V)) (i : Z)
    (m : gmap K (item V)) : gmap K (item V) :=
  match r with
  | [] => m
  | p :: r' =>
      let m' := delete p.1 m in
      let i' := (i + 1)%Z in
      if (i' >=? x)%Z || (len m' =? 0)%Z then m' else evict_loop x r' i' m'
  end.

Definition SetAllWithTTL (now : Z) (r : list (K * item V))
    (m : gmap K V) (rm : list (K * V)) (ttl : Z)
    (c : cacheWithSize K V) : cacheWithSize K V :=
  let expiration := expiration_for now ttl in
  let its := items (ws_cache c) in
  let newSize := (len its + len m)%Z in
  let its1 :=
    if (newSize >? maxSize c)%Z then
      let x := (newSize - maxSize c)%Z in
      if (len its <=? x)%Z then ∅ else evict_loop x r 0 its
    else its in
  on_cache (fun c => set_items c (insert_all expiration rm its1)) c.

Definition SetAll (now : Z) (r : list (K * item V))
    (m : gmap K V) (rm : list (K * V))
    (c : cacheWithSize K V) : cacheWithSize K V :=
  SetAllWithTTL now r m rm (defaultTTL (ws_cache c)) c.
End methods.
End WithSize.

(** ** The [Cache] interface and [New] *)

Inductive Cache (K : Type) `{Countable K} (V : Type) : Type :=
  | Sized (c : cacheWithSize K V)
  | Unsized (c : cacheWithoutSize K V).
Arguments Sized {K _ _ V} _.
Arguments Unsized {K _ _ V} _.

Module Iface.
Section dispatch.
Context {K : Type} `{Countable K} {V : Type}.

(** The embedded [*cache] the promoted methods act on. *)
Definition core (w : Cache K V) : cache K V :=
  match w with
  | Sized c => ws_cache c
  | Unsized c => wos_cache c
  end.

Definition resetItems (w : Cache K V) : Cache K V :=
  match w with
  | Sized c => Sized (WithSize.resetItems c)
  | Unsized c => Unsized (WithoutSize.on_cache resetItems c)
  end.

Definition Size (w : Cache K V) : Z := Size (core w).

Definition Get (zero : V) (key : K) (w : Cache K V) : V * bool :=
  (Get zero key (core w)).1.

(** [r] is only consulted by the bounded variant, which ranges over its
    items to pick a victim. *)
Definition SetWithTTL (now : Z) (r : list (K * item V)) (key : K) (value : V) (ttl : Z)
    (w : Cache K V) : Cache K V :=
  match w with
  | Sized c => Sized (WithSize.SetWithTTL now r key value ttl c)
  | Unsized c => Unsized (WithoutSize.SetWithTTL now key value ttl c)
  end.

Definition Set_ (now : Z) (r : list (K * item V)) (key : K) (value : V)
    (w : Cache K V) : Cache K V :=
  match w with
  | Sized c => Sized (WithSize.Set_ now r key value c)
  | Unsized c => Unsized (WithoutSize.Set_ now key value c)
  end.

Definition SetAllWithTTL (now : Z) (r : list (K * item V))
    (m : gmap K V) (rm : list (K * V)) (ttl : Z) (w : Cache K V) : Cache K V :=
  match w with
  | Sized c => Sized (WithSize.SetAllWithTTL now r m rm ttl c)
  | Unsized c => Unsized (WithoutSize.SetAllWithTTL now m rm ttl c)
  end.

Definition SetAll (now : Z) (r : list (K * item V))
    (m : gmap K V) (rm : list (K * V)) (w : Cache K V) : Cache K V :=
  match w with
  | Sized c => Sized (WithSize.SetAll now r m rm c)
  | Unsized c => Unsized (WithoutSize.SetAll now m rm c)
  end.

Definition Close (w : Cache K V) : option (Cache K V) :=
  match w with
  | Sized c =>
      match Close (ws_cache c) with
      | Some c' => Some (Sized (Build_cacheWithSize c' (maxSize c)))
      | None => None
      end
  | Unsized c =>
      match Close (wos_cache c) with
      | Some c' => Some (Unsized (Build_cacheWithoutSize c'))
      | None => None
      end
  end.
End dispatch.
End Iface.

Section construction.
Context {K : Type} `{Countable K} {V : Type}.

(** With [cleanupInterval > 0] the constructor marks the cache running and
    makes the [done] channel; the sweep goroutine it starts only calls
    [CleanExpired] on ticks until [done] is closed.  The finalizer [New]
    registers only calls [Close]. *)
Definition start_cleanup (cleanupInterval : Z) (c : cache K V) : cache K V :=
  if (cleanupInterval >? 0)%Z then Build_cache (items c) (defaultTTL c) true ChanOpen
  else c.

Definition New (defaultTTL cleanupInterval maxSize : Z) : Cache K V :=
  let c := Build_cache (∅ : gmap K (item V)) defaultTTL false ChanNil in
  let wrapped :=
    if (maxSize >? 0)%Z then Sized (Build_cacheWithSize c maxSize)
    else Unsized (Build_cacheWithoutSize c) in
  let wrapped := Iface.resetItems wrapped in
  match wrapped with
  | Sized w => Sized (WithSize.on_cache (start_cleanup cleanupInterval) w)
  | Unsized w => Unsized (WithoutSize.on_cache (start_cleanup cleanupInterval) w)
  end.
End construction.


(** ** Calls through the interface

    The remaining methods as a holder of a [Cache] value reaches them, and
    sequences of calls.  [Remove], [CleanExpired], the readers and [Close]
    are promoted from the embedded [*cache]; [Clear] and the writers are
    the wrapper's own. *)

Module Call.
Section calls.
Context {K : Type} `{Countable K} {V : Type}.

Definition promoted (f : cache K V → cache K V) (w : Cache K V) : Cache K V :=
  match w with
  | Sized c => Sized (WithSize.on_cache f c)
  | Unsized c => Unsized (WithoutSize.on_cache f c)
  end.

Definition Remove (key : K) (w : Cache K V) : Cache K V :=
  promoted (Remove key) w.

Definition CleanExpired (now : Z) (r : list (K * item V)) (w : Cache K V) : Cache K V :=
  promoted (CleanExpired now r) w.

Definition Clear (w : Cache K V) : Cache K V :=
  match w with
  | Sized c => Sized (WithSize.Clear c)
  | Unsized c => Unsized (WithoutSize.Clear c)
  end.

Definition GetSafe (zero : V) (now : Z) (key : K) (w : Cache K V) : V * bool :=
  (GetSafe zero now key (Iface.core w)).1.

Definition IsEmpty (w : Cache K V) : bool := IsEmpty (Iface.core w).

(** One call that may change the cache, with the clock reading and the
    range sequences it meets.  The readers leave the cache as it is and
    are not listed. *)
Inductive call : Type :=
  | DoSet (now : Z) (r : list (K * item V)) (key : K) (value : V)
  | DoSetWithTTL (now : Z) (r : list (K * item V)) (key : K) (value : V) (ttl : Z)
  | DoSetAll (now : Z) (r : list (K * item V)) (m : gmap K V) (rm : list (K * V))
  | DoSetAllWithTTL (now : Z) (r : list (K * item V)) (m : gmap K V)
      (rm : list (K * V)) (ttl : Z)
  | DoRemove (key : K)
  | DoClear
  | DoCleanExpired (now : Z) (r : list (K * item V))
  | DoClose.

(** [None] is a panic. *)
Definition step (w : Cache K V) (c : call) : option (Cache K V) :=
  match c with
  | DoSet now r key value => Some (Iface.Set_ now r key value w)
  | DoSetWithTTL now r key value ttl => Some (Iface.SetWithTTL now r key value ttl w)
  | DoSetAll now r m rm => Some (Iface.SetAll now r m rm w)
  | DoSetAllWithTTL now r m rm ttl => Some (Iface.SetAllWithTTL now r m rm ttl w)
  | DoRemove key => Some (Remove key w)
  | DoClear => Some (Clear w)
  | DoCleanExpired now r => Some (CleanExpired now r w)
  | DoClose => Iface.Close w
  end.

Fixpoint run (w : Cache K V) (cs : list call) : option (Cache K V) :=
  match cs with
  | [] => Some w
  | c :: cs' =>
      match step w c with
      | Some w' => run w' cs'
      | None => None
      end
  end.

(** The range sequences a call carries enumerate the maps it ranges over. *)
Definition admissible (w : Cache K V) (c : call) : Prop :=
  match c with
  | DoSet _ r _ _ | DoSetWithTTL _ r _ _ _ | DoCleanExpired _ r =>
      range_of (items (Iface.core w)) r
  | DoSetAll _ r m rm | DoSetAllWithTTL _ r m rm _ =>
      range_of (items (Iface.core w)) r ∧ range_of m rm
  | DoRemove _ | DoClear | DoClose => True
  end.

Fixpoint admissible_run (w : Cache K V) (cs : list call) : Prop :=
  match cs with
  | [] => True
  | c :: cs' =>
      admissible w c ∧
      match step w c with
      | Some w' => admissible_run w' cs'
      | None => True
      end
  end.

(** The batch a call writes has at most [bound] entries. *)
Definition batch_within (bound : Z) (c : call) : Prop :=
  match c with
  | DoSetAll _ _ m _ | DoSetAllWithTTL _ _ m _ _ => (len m ≤ bound)%Z
  | _ => True
  end.

(** The configured bound of a cache value, [0] for the unbounded variant. *)
Definition bound_of (w : Cache K V) : Z :=
  match w with
  | Sized c => maxSize c
  | Unsized _ => 0%Z
  end.

(** Two cache values are of the same variant, with the same [maxSize] and
    the same default TTL. *)
Definition same_config (w w' : Cache K V) : Prop :=
  defaultTTL (Iface.core w) = defaultTTL (Iface.core w') ∧
  match w, w' with
  | Sized c, Sized c' => maxSize c = maxSize c'
  | Unsized _, Unsized _ => True
  | _, _ => False
  end.
End calls.
End Call.

(** ** A sweep with other calls between its two phases

    [CleanExpired] releases the read lock after collecting the keys and
    takes the write lock to delete them; [between] is what other
    goroutines did to the cache in the meantime. *)
Definition CleanExpired_between {K : Type} `{Countable K} {V : Type}
    (now : Z) (r : list (K * item V)) (between : cache K V → cache K V)
    (c : cache K V) : cache K V :=
  let keys := expired_keys now r in
  let c1 := between c in
  set_items c1 (delete_keys keys (items c1)).

(** ** Sample states used to instantiate the theorems

    String keys, [nat] values, zero value [0]. *)

Definition sample_items : gmap string (item nat) :=
  {[ "fresh" := Item 1 200%Z; "stale" := Item 2 100%Z; "forever" := Item 3 0%Z ]}.

Definition sample_cache : cache string nat :=
  Build_cache sample_items 0%Z false ChanNil.

(** A bounded cache with [maxSize = 2] holding the three sample items, as
    an oversized batch leaves it. *)
Definition sample_bounded : cacheWithSize string nat :=
  Build_cacheWithSize sample_cache 2%Z.

(** The batch of the size-cap scenario, [{"d":4, "e":5, "f":6}]. *)
Definition sample_batch : gmap string nat :=
  {[ "d" := 4; "e" := 5; "f" := 6 ]}.

(** A batch that only rewrites a key the sample store already holds. *)
Definition sample_overlap : gmap string nat := {[ "stale" := 7 ]}.

(** The size-cap scenario: [New(0,0,1)], three [Set]s, one [SetAll]; the
    clock readings and the sequences each call's [range] loops produce are
    arguments. *)
Definition scenario_new : Cache string nat := New 0 0 1.

Definition scenario_sets (t1 t2 t3 : Z) (r1 r2 r3 : list (string * item nat))
    : Cache string nat :=
  Iface.Set_ t3 r3 "c" 3
    (Iface.Set_ t2 r2 "b" 2
       (Iface.Set_ t1 r1 "a" 1 scenario_new)).

Definition scenario_batch (t4 : Z) (r4 : list (string * item nat))
    (rm : list (string * nat)) (w : Cache string nat) : Cache string nat :=
  Iface.SetAll t4 r4 sample_batch rm w.

(** What [New(0,0,1)] returns, unwrapped. *)
Definition scenario_empty : cacheWithSize string nat :=
  Build_cacheWithSize (Build_cache ∅ 0%Z false ChanNil) 1%Z.

(** A cache whose sweep task is running, as [New] with a positive
    [cleanupInterval] leaves it, holding the sample items. *)
Definition sample_running : cache string nat :=
  Build_cache sample_items 0%Z true ChanOpen.

(** A sequence of calls on the cache of [New(0, 5, 2)]: writes up to the
    bound, a write that evicts, a removal of a missing key, a [Close], a
    write after it, a second [Close] and a batch. *)
Definition sample_calls : list (Call.call (K:=string) (V:=nat)) :=
  [ Call.DoSet 10 [] "a" 1;
    Call.DoSetWithTTL 20 [("a", Item 1 0%Z)] "b" 2 60;
    Call.DoSetWithTTL 30
      (map_to_list ({[ "a" := Item 1 0%Z; "b" := Item 2 80%Z ]} : gmap string (item nat)))
      "c" 3 60;
    Call.DoRemove "zzz";
    Call.DoClose;
    Call.DoSet 40 [] "d" 4;
    Call.DoClose;
    Call.DoSetAll 50 [] sample_overlap (map_to_list sample_overlap) ].

(** The cache [sample_calls] ends in. *)
Definition sample_final : Cache string nat :=
  Sized (Build_cacheWithSize
           (Build_cache {[ "stale" := Item 7 0%Z ]} 0%Z false ChanClosed) 2%Z).

(** A call between the phases of a sweep that rewrites ["stale"] with an
    entry expiring at 999. *)
Definition sample_refresh (c : cache string nat) : cache string nat :=
  set_items c (<["stale" := Item 9 999%Z]> (items c)).

(** ** The invariant of the stop channel

    [running] is only set by [New], together with [make(chan struct{})],
    and only cleared by [Close], so a running cache has an open [done]. *)
Definition sweep_armed {K : Type} `{Countable K} {V : Type} (c : cache K V) : Prop :=
  running c = true → done c = ChanOpen.


(** A concrete sequence is checked against a concrete map by computing
    the map's own enumeration. *)
Ltac range_by_computation := unfold range_of; vm_compute; reflexivity.


(** * Properties *)

(** ** Sequences produced by ranging over a map *)

Section range_facts.
Context {K : Type} `{Countable K} {A : Type}.
Implicit Types (m : gmap K A) (r : list (K * A)).

Lemma range_of_map_to_list m : range_of m (map_to_list m).
Proof. by unfold range_of. Qed.

Lemma range_of_elem m r k a : range_of m r → (k, a) ∈ r ↔ m !! k = Some a.
Proof. unfold range_of. intros ->. apply elem_of_map_to_list. Qed.

Lemma range_of_NoDup_fst m r : range_of m r → NoDup r.*1.
Proof. unfold range_of. intros ->. apply NoDup_fst_map_to_list. Qed.

Lemma range_of_length m r : range_of m r → length r = size m.
Proof. unfold range_of. intros ->. apply length_map_to_list. Qed.

Lemma range_of_fst_elem m r k : range_of m r → k ∈ r.*1 ↔ is_Some (m !! k).
Proof.
  intros Hr. rewrite list_elem_of_fmap. split.
  - intros [[k' a] [-> Hin]]. exists a. by apply (range_of_elem m r).
  - intros [a Ha]. exists (k, a). split; [done|]. by apply (range_of_elem m r).
Qed.
End range_facts.

(** ** The two phases of the sweep *)

Section sweep_facts.
Context {K : Type} `{Countable K} {V : Type}.
Implicit Types (m : gmap K (item V)) (r : list (K * item V)) (keys : list K).

Lemma expired_keys_from now r keys :
  foldl (fun keys p => if isExpired p.2 now then keys ++ [p.1] else keys) keys r
  = keys ++ (filter (fun p => isExpired p.2 now = true) r).*1.
Proof.
  revert keys. induction r as [|p r IH]; intros keys; simpl.
  - by rewrite app_nil_r.
  - rewrite IH. rewrite filter_cons. destruct (isExpired p.2 now) eqn:E.
    + rewrite decide_True by done. simpl. by rewrite <- app_assoc.
    + rewrite decide_False by done. done.
Qed.

Lemma elem_of_expired_keys now r k :
  k ∈ expired_keys now r ↔ ∃ it, (k, it) ∈ r ∧ isExpired it now = true.
Proof.
  unfold expired_keys. rewrite expired_keys_from. simpl.
  rewrite list_elem_of_fmap. split.
  - intros [[k' it] [-> [Hexp Hin]%list_elem_of_filter]]. by exists it.
  - intros [it [Hin Hexp]]. exists (k, it). split; [done|].
    by apply list_elem_of_filter.
Qed.

Lemma lookup_delete_keys keys m k :
  delete_keys keys m !! k = if decide (k ∈ keys) then None else m !! k.
Proof.
  revert m. induction keys as [|k' keys IH]; intros m.
  - rewrite decide_False; [done|]. apply not_elem_of_nil.
  - change (delete_keys (k' :: keys) m) with (delete_keys keys (delete k' m)).
    rewrite IH. destruct (decide (k ∈ keys)) as [Hin|Hnin].
    + rewrite decide_True; [done|]. apply elem_of_cons. by right.
    + destruct (decide (k = k')) as [->|Hne].
      * rewrite decide_True; [|apply elem_of_cons; by left].
        apply lookup_delete_eq.
      * rewrite decide_False; [apply lookup_delete_ne; congruence|].
        intros [?|?]%elem_of_cons; done.
Qed.

Lemma size_delete_keys keys m :
  NoDup keys → (∀ k, k ∈ keys → is_Some (m !! k)) →
  size (delete_keys keys m) = size m - length keys.
Proof.
  revert m. induction keys as [|k keys IH]; intros m Hnd Hin.
  - simpl. lia.
  - apply NoDup_cons in Hnd as [Hk Hnd].
    destruct (Hin k) as [it Hit]; [apply elem_of_cons; by left|].
    change (delete_keys (k :: keys) m) with (delete_keys keys (delete k m)).
    rewrite IH; [|done|].
    + rewrite map_size_delete_Some by eauto.
      assert (size m ≠ 0); [|simpl; lia].
      intros Hz%map_size_empty_iff. by rewrite Hz, lookup_empty in Hit.
    + intros k' Hk'. rewrite lookup_delete_ne by (intros ->; done).
      apply Hin. apply elem_of_cons. by right.
Qed.
End sweep_facts.

(** ** Reads *)

Section read_path.
Context {K : Type} `{Countable K} {V : Type}.
Implicit Types (c : cache K V) (it : item V).

(** C7: [Get] returns the stored value with [found = true] whenever the key
    is present, whatever the entry's expiration and the time; on a missing
    key it returns the zero value with [found = false]; it leaves the cache
    as it was; [GetValue] returns the value component of [Get]. *)
Theorem Get_ignores_expiration (zero : V) (key : K) c :
  (∀ it, items c !! key = Some it → Get zero key c = (value it, true, c)) ∧
  (∀ it now, items c !! key = Some it → isExpired it now = true →
     (Get zero key c).1 = (value it, true)) ∧
  (items c !! key = None → Get zero key c = (zero, false, c)) ∧
  (Get zero key c).2 = c ∧
  GetValue zero key c = ((Get zero key c).1.1, (Get zero key c).2).
Proof.
  unfold Get, GetValue. destruct (items c !! key) as [it|] eqn:E; simpl.
  - repeat split; try done.
    + by intros ? [= <-].
    + by intros ? ? [= <-] _.
  - repeat split; done.
Qed.

(** C6: [GetSafe] answers [(value, true)] exactly for a key that is present
    with an entry not expired at [now]; for an absent key and for a present
    but expired one it answers [(zero, false)]; the cache, stale entry
    included, is left as it was. *)
Theorem GetSafe_found_iff_fresh (zero : V) (now : Z) (key : K) c :
  ((GetSafe zero now key c).1.2 = true ↔
     ∃ it, items c !! key = Some it ∧ isExpired it now = false) ∧
  (∀ it, items c !! key = Some it → isExpired it now = false →
     GetSafe zero now key c = (value it, true, c)) ∧
  (∀ it, items c !! key = Some it → isExpired it now = true →
     GetSafe zero now key c = (zero, false, c)) ∧
  (items c !! key = None → GetSafe zero now key c = (zero, false, c)) ∧
  (GetSafe zero now key c).2 = c.
Proof.
  unfold GetSafe. destruct (items c !! key) as [it|] eqn:E; simpl.
  - destruct (isExpired it now) eqn:Ex; simpl; repeat split; try done.
    + intros (it' & [= <-] & Hf). congruence.
    + intros ? [= <-]. congruence.
    + intros _. by exists it.
    + by intros ? [= <-].
    + intros ? [= <-]. congruence.
  - repeat split; try done. by intros (it' & ? & _).
Qed.
End read_path.

(** ** Expiration and the sweep *)

Section expiration.
Context {K : Type} `{Countable K} {V : Type}.
Implicit Types (c : cache K V) (it : item V) (r : list (K * item V)).

Lemma isExpired_true_iff it now :
  isExpired it now = true ↔ (expiration it ≠ 0 ∧ expiration it < now)%Z.
Proof.
  unfold isExpired. destruct (Z.eqb_spec (expiration it) 0) as [->|Hne].
  - split; [done|]. by intros [? _].
  - rewrite Z.gtb_ltb, Z.ltb_lt. tauto.
Qed.

Lemma lookup_CleanExpired now r c key :
  range_of (items c) r →
  items (CleanExpired now r c) !! key =
    match items c !! key with
    | Some it => if isExpired it now then None else Some it
    | None => None
    end.
Proof.
  intros Hr. unfold CleanExpired. simpl. rewrite lookup_delete_keys.
  destruct (decide (key ∈ expired_keys now r)) as [Hin|Hnin].
  - apply elem_of_expired_keys in Hin as (it & Hin & Hexp).
    apply (range_of_elem _ _ _ _ Hr) in Hin. by rewrite Hin, Hexp.
  - destruct (items c !! key) as [it|] eqn:E; [|done].
    destruct (isExpired it now) eqn:Hexp; [|done].
    exfalso. apply Hnin. apply elem_of_expired_keys. exists it.
    split; [|done]. by apply (range_of_elem _ _ _ _ Hr).
Qed.

(** C5: with [now] read once, [CleanExpired] removes exactly the entries
    expired at [now]: each of them is absent afterwards, every other entry
    is still there with the same value and expiration, and nothing else of
    the cache changes. *)
Theorem CleanExpired_deletes_exactly_expired (now : Z) r c :
  range_of (items c) r →
  (∀ key it, items c !! key = Some it → isExpired it now = true →
     items (CleanExpired now r c) !! key = None) ∧
  (∀ key it, items c !! key = Some it → isExpired it now = false →
     items (CleanExpired now r c) !! key = Some it) ∧
  (∀ key, items c !! key = None → items (CleanExpired now r c) !! key = None) ∧
  defaultTTL (CleanExpired now r c) = defaultTTL c ∧
  running (CleanExpired now r c) = running c ∧
  done (CleanExpired now r c) = done c.
Proof.
  intros Hr. repeat split; try done.
  - intros key it Hit Hexp. by rewrite lookup_CleanExpired, Hit, Hexp.
  - intros key it Hit Hexp. by rewrite lookup_CleanExpired, Hit, Hexp.
  - intros key Hit. by rewrite lookup_CleanExpired, Hit.
Qed.

(** C10: expiration is strict and the same everywhere: an entry is expired
    at [now] exactly when its expiration is non-zero and strictly below
    [now], so it is not expired at its own timestamp and never expired with
    expiration [0]; [GetSafe] misses a present key at [now] exactly when
    [CleanExpired] at [now] removes it. *)
Theorem expiration_is_strict_and_uniform (zero : V) (now : Z) r c :
  range_of (items c) r →
  (∀ it t, isExpired it t = true ↔ (expiration it ≠ 0 ∧ expiration it < t)%Z) ∧
  (∀ (v : V) t, isExpired (Item v t) t = false) ∧
  (∀ (v : V) t, isExpired (Item v 0) t = false) ∧
  (∀ key it, items c !! key = Some it →
     ((GetSafe zero now key c).1.2 = false ↔ isExpired it now = true) ∧
     (items (CleanExpired now r c) !! key = None ↔ isExpired it now = true)) ∧
  (∀ key, is_Some (items c !! key) →
     ((GetSafe zero now key c).1.2 = false ↔
      items (CleanExpired now r c) !! key = None)).
Proof.
  intros Hr.
  assert (Hagree : ∀ key it, items c !! key = Some it →
     ((GetSafe zero now key c).1.2 = false ↔ isExpired it now = true) ∧
     (items (CleanExpired now r c) !! key = None ↔ isExpired it now = true)).
  { intros key it Hit. rewrite lookup_CleanExpired by done.
    unfold GetSafe. rewrite Hit.
    destruct (isExpired it now); simpl; split; split; done. }
  split; [apply isExpired_true_iff|].
  split.
  { intros v t. destruct (isExpired (Item v t) t) eqn:E; [|done].
    apply isExpired_true_iff in E. simpl in E. lia. }
  split.
  { intros v t. destruct (isExpired (Item v 0) t) eqn:E; [|done].
    apply isExpired_true_iff in E. simpl in E. lia. }
  split; [done|].
  intros key [it Hit]. destruct (Hagree key it Hit) as [-> ->]. done.
Qed.
End expiration.

(** ** The batch loop and the eviction loops *)

Section write_facts.
Context {K : Type} `{Countable K} {V : Type}.
Implicit Types (m : gmap K (item V)) (b : gmap K V) (rm : list (K * V))
  (r : list (K * item V)).

Lemma insert_all_cons e p rm m :
  insert_all e (p :: rm) m = insert_all e rm (<[p.1 := Item p.2 e]> m).
Proof. done. Qed.

Lemma lookup_insert_all_notin e rm m k :
  k ∉ rm.*1 → insert_all e rm m !! k = m !! k.
Proof.
  revert m. induction rm as [|p rm IH]; intros m Hk; [done|].
  rewrite insert_all_cons. rewrite fmap_cons in Hk.
  apply not_elem_of_cons in Hk as [Hne Hk].
  rewrite IH by done. by apply lookup_insert_ne.
Qed.

Lemma lookup_insert_all_in e rm m k v :
  NoDup rm.*1 → (k, v) ∈ rm → insert_all e rm m !! k = Some (Item v e).
Proof.
  revert m. induction rm as [|p rm IH]; intros m Hnd Hin.
  - by apply elem_of_nil in Hin.
  - rewrite insert_all_cons. rewrite fmap_cons in Hnd.
    apply NoDup_cons in Hnd as [Hp Hnd].
    apply elem_of_cons in Hin as [<-|Hin].
    + rewrite lookup_insert_all_notin by done. apply lookup_insert_eq.
    + by apply IH.
Qed.

Lemma size_insert_all_le e rm m :
  size (insert_all e rm m) ≤ length rm + size m.
Proof.
  revert m. induction rm as [|p rm IH]; intros m; [simpl; lia|].
  rewrite insert_all_cons. etrans; [apply IH|].
  rewrite map_size_insert. destruct (m !! p.1); simpl; lia.
Qed.

(** The batch loop amounts to laying the batch, stamped with the shared
    expiration, over the items. *)
Lemma insert_all_union e b rm m :
  range_of b rm → insert_all e rm m = ((fun v => Item v e) <$> b) ∪ m.
Proof.
  intros Hr. apply map_eq. intros k.
  rewrite lookup_union, lookup_fmap.
  destruct (b !! k) as [v|] eqn:Hb; simpl.
  - rewrite (lookup_insert_all_in e rm m k v).
    + by destruct (m !! k).
    + by apply (range_of_NoDup_fst b).
    + by apply (range_of_elem b).
  - rewrite lookup_insert_all_notin; [by destruct (m !! k)|].
    rewrite (range_of_fst_elem b rm k Hr), Hb. by intros [? ?].
Qed.

Lemma delete_keys_empty (keys : list K) : delete_keys keys (∅ : gmap K (item V)) = ∅.
Proof.
  induction keys as [|k keys IH]; [done|].
  change (delete_keys (k :: keys) ∅) with (delete_keys keys (delete k (∅ : gmap K (item V)))).
  by rewrite delete_empty.
Qed.

(** The eviction loop of the batch write removes the first [x - i]
    keys it is handed. *)
Lemma evict_loop_take x r i m :
  (1 ≤ x - i)%Z →
  WithSize.evict_loop x r i m = delete_keys (take (Z.to_nat (x - i)) r.*1) m.
Proof.
  revert i m. induction r as [|p r IH]; intros i m Hx.
  - by rewrite fmap_nil, take_nil.
  - replace (Z.to_nat (x - i)) with (S (Z.to_nat (x - (i + 1)))) by lia.
    rewrite fmap_cons. simpl take.
    change (delete_keys (p.1 :: ?ks) m) with (delete_keys ks (delete p.1 m)).
    simpl WithSize.evict_loop.
    destruct (Z.geb_spec (i + 1) x) as [Hge|Hlt]; simpl.
    + replace (Z.to_nat (x - (i + 1))) with 0 by lia. by rewrite take_0.
    + destruct (Z.eqb_spec (len (delete p.1 m)) 0) as [Hz|Hnz].
      * unfold len in Hz. assert (delete p.1 m = ∅) as ->.
        { apply map_size_empty_iff. lia. }
        by rewrite delete_keys_empty.
      * apply IH. lia.
Qed.

Lemma take_range_keys (b : gmap K (item V)) r n :
  range_of b r →
  NoDup (take n r.*1) ∧ (∀ k, k ∈ take n r.*1 → is_Some (b !! k)) ∧
  length (take n r.*1) = n `min` size b.
Proof.
  intros Hr. split; [|split].
  - apply (sublist_NoDup _ r.*1); [by apply (range_of_NoDup_fst b)|].
    apply sublist_take.
  - intros k Hk. apply (range_of_fst_elem b r k Hr).
    revert Hk. apply subseteq_take.
  - rewrite length_take, length_fmap. by rewrite (range_of_length b r Hr).
Qed.
End write_facts.

(** ** Writes of the unbounded variant *)

Lemma wrap64_id z : (min_int64 ≤ z ≤ max_int64)%Z → wrap64 z = z.
Proof.
  unfold wrap64, min_int64, max_int64. intros Hz.
  rewrite Z.mod_small; lia.
Qed.

Lemma expiration_for_never now ttl : (ttl ≤ 0)%Z → expiration_for now ttl = 0%Z.
Proof.
  intros Hle. unfold expiration_for.
  destruct (Z.gtb_spec ttl 0); [lia|done].
Qed.

Lemma expiration_for_positive now ttl :
  (0 < ttl)%Z → expiration_for now ttl = add_unix_nano now ttl.
Proof.
  intros Hlt. unfold expiration_for.
  destruct (Z.gtb_spec ttl 0); [done|lia].
Qed.

Section unbounded_write.
Context {K : Type} `{Countable K} {V : Type}.

End unbounded_write.

(** ** Writes of the size-bounded variant *)

Section bounded_write.
Context {K : Type} `{Countable K} {V : Type}.
Implicit Types (c : cacheWithSize K V) (r : list (K * item V))
  (b : gmap K V) (rm : list (K * V)).

Lemma range_of_nonempty (m : gmap K (item V)) r :
  range_of m r → 0 < size m →
  ∃ k it r', r = (k, it) :: r' ∧ m !! k = Some it.
Proof.
  intros Hr Hsz. destruct r as [|[k it] r'].
  - apply range_of_length in Hr. simpl in Hr. lia.
  - exists k, it, r'. split; [done|].
    apply (range_of_elem m _ k it Hr). apply elem_of_cons. by left.
Qed.

(** C4: in the bounded [SetWithTTL], a key that is not present, written
    into a store holding [maxSize] entries (or more), makes the loop evict
    exactly one existing entry before the insert; a key already present is
    replaced without eviction, as is a new key below the bound; the key
    maps to the given value afterwards. *)
Theorem bounded_SetWithTTL_evicts_one (zero : V) (now : Z) r (key : K) (value : V)
    (ttl : Z) c :
  (0 < maxSize c)%Z →
  range_of (items (ws_cache c)) r →
  let its := items (ws_cache c) in
  let e := expiration_for now ttl in
  let c' := WithSize.SetWithTTL now r key value ttl c in
  (its !! key = None → (maxSize c ≤ len its)%Z →
     ∃ k it, its !! k = Some it ∧
       items (ws_cache c') = <[key := Item value e]> (delete k its) ∧
       len (items (ws_cache c')) = len its) ∧
  (is_Some (its !! key) →
     items (ws_cache c') = <[key := Item value e]> its ∧
     len (items (ws_cache c')) = len its) ∧
  (its !! key = None → (len its < maxSize c)%Z →
     items (ws_cache c') = <[key := Item value e]> its) ∧
  items (ws_cache c') !! key = Some (Item value e) ∧
  Get zero key (ws_cache c') = (value, true, ws_cache c').
Proof.
  intros Hmax Hr. simpl. unfold len.
  split; [|split; [|split; [|split]]].
  - intros Hnone Hfull. rewrite Hnone.
    destruct (Z.gtb_spec (Z.of_nat (size (items (ws_cache c))) + 1) (maxSize c)); [|lia].
    destruct (range_of_nonempty _ r Hr) as (k & it & r' & -> & Hk); [lia|].
    exists k, it. split; [done|]. simpl. split; [done|].
    rewrite map_size_insert_None.
    + rewrite map_size_delete_Some by eauto.
      assert (size (items (ws_cache c)) ≠ 0); [|lia].
      intros Hz%map_size_empty_iff. by rewrite Hz, lookup_empty in Hk.
    + rewrite lookup_delete_ne; [done|]. intros ->. congruence.
  - intros [it Hit]. rewrite Hit.
    assert (size (<[key := Item value (expiration_for now ttl)]> (items (ws_cache c)))
            = size (items (ws_cache c))) as Hsz.
    { apply map_size_insert_Some. eauto. }
    destruct (_ >? _)%Z; (split; [done|by rewrite Hsz]).
  - intros Hnone Hlt.
    destruct (Z.gtb_spec (Z.of_nat (size (items (ws_cache c))) + 1) (maxSize c)); [lia|done].
  - apply lookup_insert_eq.
  - unfold Get. simpl. by rewrite lookup_insert_eq.
Qed.
End bounded_write.

Section bounded_batch.
Context {K : Type} `{Countable K} {V : Type}.
Implicit Types (c : cacheWithSize K V) (r : list (K * item V))
  (b : gmap K V) (rm : list (K * V)).

(** The three paths of the bounded [SetAllWithTTL]. *)
Lemma SetAllWithTTL_cleared now r b rm ttl c :
  (maxSize c < len (items (ws_cache c)) + len b)%Z →
  (len (items (ws_cache c)) ≤ len (items (ws_cache c)) + len b - maxSize c)%Z →
  items (ws_cache (WithSize.SetAllWithTTL now r b rm ttl c))
  = insert_all (expiration_for now ttl) rm ∅.
Proof.
  intros Hover Hall. unfold WithSize.SetAllWithTTL. simpl.
  destruct (Z.gtb_spec (len (items (ws_cache c)) + len b) (maxSize c)); [|lia].
  destruct (Z.leb_spec (len (items (ws_cache c)))
              (len (items (ws_cache c)) + len b - maxSize c)); [done|lia].
Qed.

Lemma SetAllWithTTL_evicted now r b rm ttl c :
  (maxSize c < len (items (ws_cache c)) + len b)%Z →
  (len (items (ws_cache c)) + len b - maxSize c < len (items (ws_cache c)))%Z →
  items (ws_cache (WithSize.SetAllWithTTL now r b rm ttl c))
  = insert_all (expiration_for now ttl) rm
      (delete_keys
         (take (Z.to_nat (len (items (ws_cache c)) + len b - maxSize c)) r.*1)
         (items (ws_cache c))).
Proof.
  intros Hover Hsome. unfold WithSize.SetAllWithTTL. simpl.
  destruct (Z.gtb_spec (len (items (ws_cache c)) + len b) (maxSize c)); [|lia].
  destruct (Z.leb_spec (len (items (ws_cache c)))
              (len (items (ws_cache c)) + len b - maxSize c)); [lia|].
  rewrite evict_loop_take by lia. by rewrite Z.sub_0_r.
Qed.

Lemma SetAllWithTTL_kept now r b rm ttl c :
  (len (items (ws_cache c)) + len b ≤ maxSize c)%Z →
  items (ws_cache (WithSize.SetAllWithTTL now r b rm ttl c))
  = insert_all (expiration_for now ttl) rm (items (ws_cache c)).
Proof.
  intros Hfit. unfold WithSize.SetAllWithTTL. simpl.
  destruct (Z.gtb_spec (len (items (ws_cache c)) + len b) (maxSize c)); [lia|done].
Qed.

(** C3: the bounded [SetAllWithTTL] computes the overflow
    [x = size + len(map) - maxSize] from [len(map)] as it is; with
    [x >= size] the store is emptied, with [0 < x < size] exactly [x]
    distinct existing entries (the first [x] the range produces) are
    deleted, with [x <= 0] none is; then every batch entry is inserted
    over what is left, all with the one expiration computed at entry. *)
Theorem bounded_SetAllWithTTL_evicts_overflow (now : Z) r b rm (ttl : Z) c :
  range_of (items (ws_cache c)) r →
  range_of b rm →
  let its := items (ws_cache c) in
  let x := (len its + len b - maxSize c)%Z in
  let batch := (fun v => Item v (expiration_for now ttl)) <$> b in
  let victims := take (Z.to_nat x) r.*1 in
  let c' := WithSize.SetAllWithTTL now r b rm ttl c in
  ((maxSize c < len its + len b)%Z → (len its ≤ x)%Z →
     items (ws_cache c') = batch) ∧
  ((maxSize c < len its + len b)%Z → (x < len its)%Z →
     NoDup victims ∧ (∀ k, k ∈ victims → is_Some (its !! k)) ∧
     Z.of_nat (length victims) = x ∧
     len (delete_keys victims its) = (len its - x)%Z ∧
     items (ws_cache c') = batch ∪ delete_keys victims its) ∧
  ((len its + len b ≤ maxSize c)%Z → items (ws_cache c') = batch ∪ its) ∧
  (∀ k v, b !! k = Some v →
     items (ws_cache c') !! k = Some (Item v (expiration_for now ttl))).
Proof.
  intros Hr Hb. cbv zeta.
  split; [|split; [|split]].
  - intros Hover Hall. rewrite SetAllWithTTL_cleared by done.
    rewrite (insert_all_union _ b) by done. apply (right_id_L ∅ (∪)).
  - intros Hover Hsome.
    destruct (take_range_keys (items (ws_cache c)) r
                (Z.to_nat (len (items (ws_cache c)) + len b - maxSize c)) Hr)
      as (Hnd & Hin & Hlen).
    assert (Z.of_nat (length (take
              (Z.to_nat (len (items (ws_cache c)) + len b - maxSize c)) r.*1))
            = (len (items (ws_cache c)) + len b - maxSize c)%Z) as Hlen'.
    { rewrite Hlen. unfold len in *. lia. }
    split; [done|]. split; [done|]. split; [done|]. split.
    + unfold len at 1. rewrite size_delete_keys by done.
      unfold len in *. lia.
    + rewrite SetAllWithTTL_evicted by done.
      by rewrite (insert_all_union _ b).
  - intros Hfit. rewrite SetAllWithTTL_kept by done.
    by rewrite (insert_all_union _ b).
  - intros k v Hk. unfold WithSize.SetAllWithTTL. simpl.
    apply lookup_insert_all_in.
    + by apply (range_of_NoDup_fst b).
    + by apply (range_of_elem b).
Qed.
End bounded_batch.

(** ** The size bound *)

Section size_bound.
Context {K : Type} `{Countable K} {V : Type}.
Implicit Types (c : cacheWithSize K V) (r : list (K * item V))
  (b : gmap K V) (rm : list (K * V)).

Lemma size_bounded_SetWithTTL now r key value ttl c :
  (0 < maxSize c)%Z →
  range_of (items (ws_cache c)) r →
  (Size (ws_cache (WithSize.SetWithTTL now r key value ttl c))
   ≤ maxSize c `max` Size (ws_cache c))%Z.
Proof.
  intros Hmax Hr. unfold Size, len, WithSize.SetWithTTL. simpl.
  destruct (Z.gtb_spec (len (items (ws_cache c)) + 1) (maxSize c)) as [Hfull|Hfit];
    unfold len in *.
  - destruct (items (ws_cache c) !! key) as [it|] eqn:E.
    + rewrite map_size_insert_Some by eauto. lia.
    + destruct (range_of_nonempty _ r Hr) as (k & it & r' & -> & Hk); [lia|].
      simpl. rewrite map_size_insert_None.
      * rewrite map_size_delete_Some by eauto. lia.
      * rewrite lookup_delete_ne; [done|]. intros ->. congruence.
  - rewrite map_size_insert. destruct (items (ws_cache c) !! key); simpl; lia.
Qed.

Lemma size_bounded_SetAllWithTTL now r b rm ttl c :
  range_of (items (ws_cache c)) r →
  range_of b rm →
  (Size (ws_cache (WithSize.SetAllWithTTL now r b rm ttl c))
   ≤ maxSize c `max` len b)%Z.
Proof.
  intros Hr Hb. unfold Size.
  pose proof (range_of_length b rm Hb) as Hlen.
  destruct (Z.le_gt_cases (len (items (ws_cache c)) + len b) (maxSize c)) as [Hfit|Hover].
  - rewrite SetAllWithTTL_kept by done.
    pose proof (size_insert_all_le (expiration_for now ttl) rm (items (ws_cache c))).
    unfold len in *. lia.
  - destruct (Z.le_gt_cases (len (items (ws_cache c)))
                (len (items (ws_cache c)) + len b - maxSize c)) as [Hall|Hsome].
    + rewrite SetAllWithTTL_cleared by done.
      pose proof (size_insert_all_le (expiration_for now ttl) rm (∅ : gmap K (item V))) as Hle.
      rewrite map_size_empty in Hle. unfold len in *. lia.
    + rewrite SetAllWithTTL_evicted by done.
      destruct (take_range_keys (items (ws_cache c)) r
                  (Z.to_nat (len (items (ws_cache c)) + len b - maxSize c)) Hr)
        as (Hnd & Hin & Hlt).
      pose proof (size_insert_all_le (expiration_for now ttl) rm
        (delete_keys
           (take (Z.to_nat (len (items (ws_cache c)) + len b - maxSize c)) r.*1)
           (items (ws_cache c)))) as Hle.
      rewrite size_delete_keys in Hle by done. rewrite Hlt in Hle.
      unfold len in *. lia.
Qed.

Lemma size_oversized_SetAllWithTTL now r b rm ttl c :
  range_of b rm →
  (maxSize c < len b)%Z →
  Size (ws_cache (WithSize.SetAllWithTTL now r b rm ttl c)) = len b.
Proof.
  intros Hb Hbig. unfold Size.
  rewrite SetAllWithTTL_cleared by (unfold len in *; lia).
  rewrite (insert_all_union _ b) by done.
  rewrite (right_id_L ∅ (∪)). unfold len. by rewrite map_size_fmap.
Qed.

End size_bound.

(** ** The size-cap scenario *)

Lemma range_of_singleton {K : Type} `{Countable K} {A : Type}
    (k : K) (a : A) (r : list (K * A)) :
  range_of ({[k := a]} : gmap K A) r → r = [(k, a)].
Proof.
  unfold range_of. rewrite map_to_list_singleton.
  apply Permutation_singleton_r.
Qed.

Lemma scenario_after_a t1 r1 :
  items (Iface.core (Iface.Set_ t1 r1 "a" 1 scenario_new))
  = {[ "a" := Item 1 0%Z ]}.
Proof. done. Qed.

Lemma scenario_after_b t1 t2 r1 r2 :
  range_of (items (Iface.core (Iface.Set_ t1 r1 "a" 1 scenario_new))) r2 →
  items (Iface.core (Iface.Set_ t2 r2 "b" 2 (Iface.Set_ t1 r1 "a" 1 scenario_new)))
  = {[ "b" := Item 2 0%Z ]}.
Proof.
  rewrite scenario_after_a. intros ->%range_of_singleton. done.
Qed.

Lemma scenario_after_c t1 t2 t3 r1 r2 r3 :
  range_of (items (Iface.core (Iface.Set_ t1 r1 "a" 1 scenario_new))) r2 →
  range_of (items (Iface.core
     (Iface.Set_ t2 r2 "b" 2 (Iface.Set_ t1 r1 "a" 1 scenario_new)))) r3 →
  scenario_sets t1 t2 t3 r1 r2 r3
  = Sized (Build_cacheWithSize
             (Build_cache {[ "c" := Item 3 0%Z ]} 0%Z false ChanNil) 1%Z).
Proof.
  intros H2. rewrite scenario_after_b by done.
  apply range_of_singleton in H2 as ->.
  intros ->%range_of_singleton. done.
Qed.

(** C2: on [New(0,0,1)], after [Set("a",1)], [Set("b",2)], [Set("c",3)] the
    size is 1 and the one key left is among [a], [b], [c] (it is [c]);
    a [SetAll] of the three-entry batch then leaves size 3.  This holds for
    every clock and every order the runtime ranges the maps in. *)
Theorem size_cap_scenario (t1 t2 t3 t4 : Z) (r1 r2 r3 r4 : list (string * item nat))
    (rm : list (string * nat)) :
  range_of (items (Iface.core scenario_new)) r1 →
  range_of (items (Iface.core (Iface.Set_ t1 r1 "a" 1 scenario_new))) r2 →
  range_of (items (Iface.core
     (Iface.Set_ t2 r2 "b" 2 (Iface.Set_ t1 r1 "a" 1 scenario_new)))) r3 →
  range_of (items (Iface.core (scenario_sets t1 t2 t3 r1 r2 r3))) r4 →
  range_of sample_batch rm →
  Iface.Size (scenario_sets t1 t2 t3 r1 r2 r3) = 1%Z ∧
  (∃ k, k ∈ ["a"; "b"; "c"] ∧
     dom (items (Iface.core (scenario_sets t1 t2 t3 r1 r2 r3))) = {[ k ]}) ∧
  items (Iface.core (scenario_sets t1 t2 t3 r1 r2 r3)) = {[ "c" := Item 3 0%Z ]} ∧
  Iface.Size (scenario_batch t4 r4 rm (scenario_sets t1 t2 t3 r1 r2 r3)) = 3%Z.
Proof.
  intros _ H2 H3 _ Hm. rewrite scenario_after_c by done.
  split; [done|]. split.
  { exists "c". split; [set_solver|]. simpl. by rewrite dom_singleton_L. }
  split; [done|].
  unfold scenario_batch, Iface.SetAll, Iface.Size, Iface.core, WithSize.SetAll.
  by rewrite size_oversized_SetAllWithTTL.
Qed.


(** ** Closing *)

Section closing.
Context {K : Type} `{Countable K} {V : Type}.
Implicit Types (c : cache K V).

Lemma New_sweep_armed (ttl cleanupInterval size : Z) :
  sweep_armed (Iface.core (New (K:=K) (V:=V) ttl cleanupInterval size)).
Proof.
  unfold sweep_armed, New, start_cleanup.
  destruct (size >? 0)%Z, (cleanupInterval >? 0)%Z; simpl; done.
Qed.

Lemma New_running_iff (ttl cleanupInterval size : Z) :
  running (Iface.core (New (K:=K) (V:=V) ttl cleanupInterval size)) = true
  ↔ (0 < cleanupInterval)%Z.
Proof.
  unfold New, start_cleanup.
  destruct (Z.gtb_spec cleanupInterval 0), (size >? 0)%Z; simpl; split; (done || lia).
Qed.

Lemma Close_armed c :
  sweep_armed c →
  Close c = Some (Build_cache ∅ (defaultTTL c) false
                    (if running c then ChanClosed else done c)).
Proof.
  unfold sweep_armed, Close, set_items. intros Harmed.
  destruct (running c) eqn:Hrun; [|done].
  by rewrite Harmed.
Qed.

Lemma Close_stopped c :
  running c = false → Close c = Some (Build_cache ∅ (defaultTTL c) false (done c)).
Proof. unfold Close, set_items. by intros ->. Qed.

Lemma sweep_armed_set_items c (m : gmap K (item V)) :
  sweep_armed c → sweep_armed (set_items c m).
Proof. done. Qed.

(** Reads, writes, removals and sweeps only replace the items, so every
    cache reached from [New] without [Close] satisfies the invariant; a
    closed cache is not running. *)
Lemma sweep_armed_kept c (now : Z) (key : K) (r : list (K * item V)) :
  sweep_armed c →
  sweep_armed (Remove key c) ∧ sweep_armed (CleanExpired now r c) ∧
  sweep_armed (resetItems c).
Proof. done. Qed.

Lemma Close_not_running c c' : Close c = Some c' → running c' = false.
Proof.
  unfold Close, set_items. destruct (running c) eqn:Hrun.
  - destruct (close (done c)); [|done]. by intros [= <-].
  - by intros [= <-].
Qed.

Lemma Close_times_S c (n : nat) :
  Close_times (S n) c = match Close c with
                        | Some c' => Close_times n c'
                        | None => None
                        end.
Proof. done. Qed.

Lemma Close_times_fixed c (n : nat) :
  Close c = Some c → Close_times n c = Some c.
Proof.
  intros Hfix. induction n as [|n IH]; [done|].
  by rewrite Close_times_S, Hfix.
Qed.

(** C9: [Close] is idempotent.  On a cache whose [done] channel is open
    whenever it is running (as [New] builds it), the first call returns
    without panic, closes [done] if the task was running (and leaves it
    alone otherwise), clears [running] and empties the store; every further
    call returns without panic and leaves that state as it is, so [done]
    is closed at most once; the size is 0 after each call. *)
Theorem Close_is_idempotent c (n : nat) :
  sweep_armed c →
  let closed :=
    Build_cache (∅ : gmap K (item V)) (defaultTTL c) false
      (if running c then ChanClosed else done c) in
  Close c = Some closed ∧
  Size closed = 0%Z ∧
  (running c = true → done closed = ChanClosed) ∧
  (running c = false → done closed = done c) ∧
  Close closed = Some closed ∧
  Close_times (S n) c = Some closed.
Proof.
  intros Harmed closed.
  assert (Close closed = Some closed) as Hagain by done.
  assert (Close c = Some closed) as Hfirst by (by apply Close_armed).
  split; [done|]. split; [done|].
  split. { intros Hrun. subst closed. simpl. by rewrite Hrun. }
  split. { intros Hrun. subst closed. simpl. by rewrite Hrun. }
  split; [done|].
  rewrite Close_times_S, Hfirst. by apply Close_times_fixed.
Qed.

(** At the interface: whatever the arguments of [New], closing the cache it
    returns succeeds, leaves it empty, and closing again changes nothing. *)
Lemma Close_twice_after_New (ttl cleanupInterval size : Z) :
  ∃ w : Cache K V,
    Iface.Close (New ttl cleanupInterval size) = Some w ∧
    Iface.Size w = 0%Z ∧
    Iface.Close w = Some w.
Proof.
  unfold New, start_cleanup.
  destruct (size >? 0)%Z, (cleanupInterval >? 0)%Z; simpl; eexists; done.
Qed.
End closing.

(** * The theorems at concrete inputs *)

(** [Get] on the sample cache at a stale key and at a missing key. *)
Lemma Get_ignores_expiration_witness :
  isExpired (Item 2 100%Z) 150 = true ∧
  Get 0 "stale" sample_cache = (2, true, sample_cache) ∧
  Get 0 "absent" sample_cache = (0, false, sample_cache) ∧
  GetValue 0 "stale" sample_cache = (2, sample_cache).
Proof.
  destruct (Get_ignores_expiration 0 "stale" sample_cache) as (Hp & _ & _ & _ & Hv).
  destruct (Get_ignores_expiration 0 "absent" sample_cache) as (_ & _ & Ha & _).
  split; [reflexivity|].
  split; [apply (Hp (Item 2 100%Z)); reflexivity|].
  split; [apply Ha; reflexivity|].
  rewrite Hv. reflexivity.
Defined.

(** [GetSafe] at time 150 on a fresh, a stale, a never-expiring and a
    missing key. *)
Lemma GetSafe_found_iff_fresh_witness :
  GetSafe 0 150 "fresh" sample_cache = (1, true, sample_cache) ∧
  GetSafe 0 150 "stale" sample_cache = (0, false, sample_cache) ∧
  GetSafe 0 150 "forever" sample_cache = (3, true, sample_cache) ∧
  GetSafe 0 150 "absent" sample_cache = (0, false, sample_cache).
Proof.
  destruct (GetSafe_found_iff_fresh 0 150 "fresh" sample_cache) as (_ & Hf & _).
  destruct (GetSafe_found_iff_fresh 0 150 "stale" sample_cache) as (_ & _ & Hs & _).
  destruct (GetSafe_found_iff_fresh 0 150 "forever" sample_cache) as (_ & Hn & _).
  destruct (GetSafe_found_iff_fresh 0 150 "absent" sample_cache) as (_ & _ & _ & Ha & _).
  split; [apply (Hf (Item 1 200%Z)); reflexivity|].
  split; [apply (Hs (Item 2 100%Z)); reflexivity|].
  split; [apply (Hn (Item 3 0%Z)); reflexivity|].
  apply Ha; reflexivity.
Defined.

(** A sweep at time 150 over three entries, one of them expired, leaves
    the two others. *)
Lemma CleanExpired_deletes_exactly_expired_witness :
  range_of (items sample_cache) (map_to_list sample_items) ∧
  items (CleanExpired 150 (map_to_list sample_items) sample_cache) !! "stale" = None ∧
  items (CleanExpired 150 (map_to_list sample_items) sample_cache) !! "fresh"
    = Some (Item 1 200%Z) ∧
  items (CleanExpired 150 (map_to_list sample_items) sample_cache) !! "forever"
    = Some (Item 3 0%Z) ∧
  Size (CleanExpired 150 (map_to_list sample_items) sample_cache) = 2%Z.
Proof.
  assert (range_of (items sample_cache) (map_to_list sample_items)) as Hr
    by range_by_computation.
  destruct (CleanExpired_deletes_exactly_expired 150 _ sample_cache Hr)
    as (Hgone & Hkept & _).
  split; [exact Hr|].
  split; [apply (Hgone "stale" (Item 2 100%Z)); reflexivity|].
  split; [apply (Hkept "fresh" (Item 1 200%Z)); reflexivity|].
  split; [apply (Hkept "forever" (Item 3 0%Z)); reflexivity|].
  reflexivity.
Defined.

(** The entry expiring at 100 is kept by both operations at time 100 and
    dropped by both at time 101. *)
Lemma expiration_is_strict_and_uniform_witness :
  range_of (items sample_cache) (map_to_list sample_items) ∧
  isExpired (Item 2%nat 100%Z) 100 = false ∧
  isExpired (Item 2%nat 0%Z) 100 = false ∧
  ((GetSafe 0 100 "stale" sample_cache).1.2 = false ↔
   items (CleanExpired 100 (map_to_list sample_items) sample_cache) !! "stale" = None) ∧
  ((GetSafe 0 101 "stale" sample_cache).1.2 = false ↔
   items (CleanExpired 101 (map_to_list sample_items) sample_cache) !! "stale" = None).
Proof.
  assert (range_of (items sample_cache) (map_to_list sample_items)) as Hr
    by range_by_computation.
  destruct (expiration_is_strict_and_uniform 0 100 _ sample_cache Hr)
    as (_ & Hat & Hzero & _ & Hagree).
  destruct (expiration_is_strict_and_uniform 0 101 _ sample_cache Hr)
    as (_ & _ & _ & _ & Hagree').
  split; [exact Hr|]. split; [apply Hat|]. split; [apply Hzero|].
  split; [apply Hagree|apply Hagree']; exists (Item 2 100%Z); reflexivity.
Defined.


(** A new key and a present key written into a full bounded store. *)
Lemma bounded_SetWithTTL_evicts_one_witness :
  (0 < maxSize sample_bounded)%Z ∧
  range_of (items (ws_cache sample_bounded)) (map_to_list sample_items) ∧
  items (ws_cache sample_bounded) !! "new" = None ∧
  (maxSize sample_bounded ≤ len (items (ws_cache sample_bounded)))%Z ∧
  (∃ k it, items (ws_cache sample_bounded) !! k = Some it ∧
     items (ws_cache (WithSize.SetWithTTL 1000 (map_to_list sample_items) "new" 9 60
                        sample_bounded))
     = <["new" := Item 9 (expiration_for 1000 60)]>
         (delete k (items (ws_cache sample_bounded))) ∧
     len (items (ws_cache (WithSize.SetWithTTL 1000 (map_to_list sample_items)
                             "new" 9 60 sample_bounded)))
     = len (items (ws_cache sample_bounded))) ∧
  items (ws_cache (WithSize.SetWithTTL 1000 (map_to_list sample_items) "stale" 9 60
                     sample_bounded))
  = <["stale" := Item 9 (expiration_for 1000 60)]> (items (ws_cache sample_bounded)).
Proof.
  assert (0 < maxSize sample_bounded)%Z as Hmax by reflexivity.
  assert (range_of (items (ws_cache sample_bounded)) (map_to_list sample_items)) as Hr
    by range_by_computation.
  assert (items (ws_cache sample_bounded) !! "new" = None) as Hnew by reflexivity.
  assert (maxSize sample_bounded ≤ len (items (ws_cache sample_bounded)))%Z as Hfull
    by (vm_compute; discriminate).
  pose proof (bounded_SetWithTTL_evicts_one 0 1000 _ "new" 9 60 sample_bounded Hmax Hr)
    as Hset.
  pose proof (bounded_SetWithTTL_evicts_one 0 1000 _ "stale" 9 60 sample_bounded Hmax Hr)
    as Hset'.
  cbv zeta in Hset, Hset'.
  destruct Hset as (Hevict & _). destruct Hset' as (_ & Hreplace & _).
  split; [exact Hmax|]. split; [exact Hr|]. split; [exact Hnew|].
  split; [exact Hfull|]. split; [exact (Hevict Hnew Hfull)|].
  apply Hreplace. exists (Item 2 100%Z). reflexivity.
Defined.

(** A one-entry batch that only rewrites a present key: the overflow is
    still counted from [len(map)] and two entries are evicted. *)
Lemma bounded_SetAllWithTTL_evicts_overflow_witness :
  range_of (items (ws_cache sample_bounded)) (map_to_list sample_items) ∧
  range_of sample_overlap (map_to_list sample_overlap) ∧
  (maxSize sample_bounded
   < len (items (ws_cache sample_bounded)) + len sample_overlap)%Z ∧
  (len (items (ws_cache sample_bounded)) + len sample_overlap - maxSize sample_bounded
   < len (items (ws_cache sample_bounded)))%Z ∧
  Z.of_nat (length (take (Z.to_nat 2) (map_to_list sample_items).*1)) = 2%Z ∧
  items (ws_cache (WithSize.SetAllWithTTL 1000 (map_to_list sample_items)
                     sample_overlap (map_to_list sample_overlap) 60 sample_bounded))
  = ((fun v => Item v (expiration_for 1000 60)) <$> sample_overlap)
    ∪ delete_keys (take (Z.to_nat 2) (map_to_list sample_items).*1)
        (items (ws_cache sample_bounded)) ∧
  items (ws_cache (WithSize.SetAllWithTTL 1000 (map_to_list sample_items)
                     sample_overlap (map_to_list sample_overlap) 60 sample_bounded))
    !! "stale" = Some (Item 7 (expiration_for 1000 60)).
Proof.
  assert (range_of (items (ws_cache sample_bounded)) (map_to_list sample_items)) as Hr
    by range_by_computation.
  assert (range_of sample_overlap (map_to_list sample_overlap)) as Hb
    by range_by_computation.
  assert (maxSize sample_bounded
          < len (items (ws_cache sample_bounded)) + len sample_overlap)%Z as Hover
    by reflexivity.
  assert (len (items (ws_cache sample_bounded)) + len sample_overlap
            - maxSize sample_bounded
          < len (items (ws_cache sample_bounded)))%Z as Hsome
    by reflexivity.
  pose proof (bounded_SetAllWithTTL_evicts_overflow 1000 _ _ _ 60 sample_bounded Hr Hb)
    as Hset.
  cbv zeta in Hset. destruct Hset as (_ & Hevict & _ & Hbatch).
  destruct (Hevict Hover Hsome) as (_ & _ & Hcount & _ & Hitems).
  split; [exact Hr|]. split; [exact Hb|]. split; [exact Hover|].
  split; [exact Hsome|]. split; [exact Hcount|]. split; [exact Hitems|].
  apply Hbatch. reflexivity.
Defined.


(** The scenario with the only range sequences the three one-entry stores
    admit. *)
Lemma size_cap_scenario_witness :
  range_of (items (Iface.core scenario_new)) [] ∧
  range_of (items (Iface.core (Iface.Set_ 10 [] "a" 1 scenario_new)))
    [("a", Item 1 0%Z)] ∧
  range_of (items (Iface.core
      (Iface.Set_ 20 [("a", Item 1 0%Z)] "b" 2 (Iface.Set_ 10 [] "a" 1 scenario_new))))
    [("b", Item 2 0%Z)] ∧
  range_of (items (Iface.core
      (scenario_sets 10 20 30 [] [("a", Item 1 0%Z)] [("b", Item 2 0%Z)])))
    [("c", Item 3 0%Z)] ∧
  range_of sample_batch (map_to_list sample_batch) ∧
  Iface.Size (scenario_sets 10 20 30 [] [("a", Item 1 0%Z)] [("b", Item 2 0%Z)])
    = 1%Z ∧
  Iface.Size
    (scenario_batch 40 [("c", Item 3 0%Z)] (map_to_list sample_batch)
       (scenario_sets 10 20 30 [] [("a", Item 1 0%Z)] [("b", Item 2 0%Z)]))
    = 3%Z.
Proof.
  assert (range_of (items (Iface.core scenario_new)) []) as H1
    by range_by_computation.
  assert (range_of (items (Iface.core (Iface.Set_ 10 [] "a" 1 scenario_new)))
            [("a", Item 1 0%Z)]) as H2 by range_by_computation.
  assert (range_of (items (Iface.core
            (Iface.Set_ 20 [("a", Item 1 0%Z)] "b" 2
               (Iface.Set_ 10 [] "a" 1 scenario_new))))
            [("b", Item 2 0%Z)]) as H3 by range_by_computation.
  assert (range_of (items (Iface.core
            (scenario_sets 10 20 30 [] [("a", Item 1 0%Z)] [("b", Item 2 0%Z)])))
            [("c", Item 3 0%Z)]) as H4 by range_by_computation.
  assert (range_of sample_batch (map_to_list sample_batch)) as Hm
    by range_by_computation.
  destruct (size_cap_scenario 10 20 30 40 _ _ _ _ _ H1 H2 H3 H4 Hm)
    as (Hone & _ & _ & Hthree).
  split; [exact H1|]. split; [exact H2|]. split; [exact H3|].
  split; [exact H4|]. split; [exact Hm|]. split; [exact Hone|exact Hthree].
Defined.

(** Closing a running cache once, twice and three times. *)
Lemma Close_is_idempotent_witness :
  sweep_armed sample_running ∧
  Close sample_running = Some (Build_cache ∅ 0%Z false ChanClosed) ∧
  Close (Build_cache (∅ : gmap string (item nat)) 0%Z false ChanClosed)
    = Some (Build_cache ∅ 0%Z false ChanClosed) ∧
  Close_times 3 sample_running = Some (Build_cache ∅ 0%Z false ChanClosed).
Proof.
  assert (sweep_armed sample_running) as Harmed by (intros _; reflexivity).
  pose proof (Close_is_idempotent sample_running 2 Harmed) as Hclose.
  cbv zeta in Hclose. destruct Hclose as (Hfirst & _ & _ & _ & Hagain & Hmany).
  split; [exact Harmed|]. split; [exact Hfirst|].
  split; [exact Hagain|exact Hmany].
Defined.

(** * Further properties of the cache *)

(** ** Removal, emptiness, clearing, construction *)

Section more_core.
Context {K : Type} `{Countable K} {V : Type}.
Implicit Types (c : cache K V) (w : Cache K V).

Lemma set_items_same c : set_items c (items c) = c.
Proof. by destruct c. Qed.

(** X1: [Remove] deletes the entry of its key and nothing else: the key is
    missed by [Get] afterwards, every other key reads as before, removing
    an absent key leaves the cache exactly as it was, and removing a
    present key lowers the size by one. *)
Theorem Remove_removes_only_key (zero : V) (key : K) c :
  Get zero key (Remove key c) = (zero, false, Remove key c) ∧
  (∀ k, k ≠ key → Get zero k (Remove key c) = ((Get zero k c).1, Remove key c)) ∧
  (items c !! key = None → Remove key c = c) ∧
  (is_Some (items c !! key) → Size (Remove key c) = (Size c - 1)%Z) ∧
  Remove key (Remove key c) = Remove key c.
Proof.
  split; [|split; [|split; [|split]]].
  - unfold Get, Remove. simpl. by rewrite lookup_delete_eq.
  - intros k Hne. unfold Get, Remove. simpl.
    rewrite lookup_delete_ne by done. by destruct (items c !! k).
  - intros Hnone. unfold Remove. rewrite delete_id by done.
    apply set_items_same.
  - intros [it Hit]. unfold Size, len, Remove. simpl.
    rewrite map_size_delete_Some by eauto.
    assert (size (items c) ≠ 0); [|lia].
    intros Hz%map_size_empty_iff. by rewrite Hz, lookup_empty in Hit.
  - unfold Remove, set_items. simpl. f_equal.
    apply delete_id, lookup_delete_eq.
Qed.

(** X2: [IsEmpty] answers [true] exactly when the store holds no entry,
    that is exactly when [Get] misses every key; it answers [false]
    exactly when some key is found.  Expired entries count: a store whose
    only entry is stale is not empty. *)
Theorem IsEmpty_iff_every_Get_misses (zero : V) c :
  (IsEmpty c = true ↔ items c = ∅) ∧
  (IsEmpty c = true ↔ ∀ key, (Get zero key c).1.2 = false) ∧
  (IsEmpty c = false ↔ ∃ key, (Get zero key c).1.2 = true) ∧
  (∀ key it now, items c !! key = Some it → isExpired it now = true →
     IsEmpty c = false).
Proof.
  assert (IsEmpty c = true ↔ items c = ∅) as Hempty.
  { unfold IsEmpty, Size, len. rewrite Z.eqb_eq.
    rewrite <- map_size_empty_iff. lia. }
  assert (∀ key, (Get zero key c).1.2 = false ↔ items c !! key = None) as Hmiss.
  { intros key. unfold Get. destruct (items c !! key); simpl; split; done. }
  assert (IsEmpty c = true ↔ ∀ key, (Get zero key c).1.2 = false) as Hall.
  { rewrite Hempty. split.
    - intros Hz key. apply Hmiss. by rewrite Hz, lookup_empty.
    - intros Hno. apply map_empty. intros key. by apply Hmiss. }
  split; [done|]. split; [done|]. split.
  - split.
    + intros Hne. destruct (map_choose (items c)) as (key & it & Hit).
      { intros Hz. apply Hempty in Hz. congruence. }
      exists key. unfold Get. by rewrite Hit.
    + intros [key Hfound]. destruct (IsEmpty c) eqn:E; [|done].
      rewrite (proj1 Hall eq_refl key) in Hfound. done.
  - intros key it now Hit _. destruct (IsEmpty c) eqn:E; [|done].
    by rewrite (proj1 Hempty eq_refl), lookup_empty in Hit.
Qed.

Lemma foldl_Remove_items (keys : list K) c :
  foldl (fun c key => Remove key c) c keys = set_items c (delete_keys keys (items c)).
Proof.
  revert c. induction keys as [|k keys IH]; intros c.
  - simpl. by rewrite set_items_same.
  - simpl. by rewrite IH.
Qed.

(** X3: [Clear] of either variant leaves an empty store and keeps the
    variant, [maxSize], the default TTL and the state of the sweep task;
    it leaves what removing every key one by one leaves, in whatever order
    the keys are ranged. *)
Theorem Clear_is_removing_every_key w (r : list (K * item V)) :
  range_of (items (Iface.core w)) r →
  Call.Clear w = foldl (fun w key => Call.Remove key w) w r.*1 ∧
  items (Iface.core (Call.Clear w)) = ∅ ∧
  Call.IsEmpty (Call.Clear w) = true ∧
  Call.bound_of (Call.Clear w) = Call.bound_of w ∧
  defaultTTL (Iface.core (Call.Clear w)) = defaultTTL (Iface.core w) ∧
  running (Iface.core (Call.Clear w)) = running (Iface.core w) ∧
  done (Iface.core (Call.Clear w)) = done (Iface.core w).
Proof.
  intros Hr. split; [|by destruct w].
  assert (∀ keys (c : cache K V),
    (∀ k, is_Some (items c !! k) → k ∈ keys) →
    delete_keys keys (items c) = ∅) as Hall.
  { intros keys c Hin. apply map_empty. intros k.
    rewrite lookup_delete_keys. case_decide as Hk; [done|].
    destruct (items c !! k) eqn:E; [|done]. exfalso. apply Hk, Hin. eauto. }
  assert (∀ keys w', foldl (fun w key => Call.Remove key w) w' keys
    = Call.promoted (fun c => foldl (fun c key => Remove key c) c keys) w') as Hfold.
  { intros keys. induction keys as [|k keys IH]; intros w'.
    - by destruct w' as [[c ms]|[c]].
    - simpl. rewrite IH. by destruct w' as [[c ms]|[c]]. }
  rewrite Hfold.
  destruct w as [[c ms]|[c]]; simpl in *;
    unfold WithSize.Clear, WithSize.resetItems, WithoutSize.Clear,
      WithSize.on_cache, WithoutSize.on_cache, resetItems; simpl;
    rewrite foldl_Remove_items, Hall; try done;
    intros k Hk; by apply (range_of_fst_elem (items c) r k Hr).
Qed.

(** X4: [New] returns the bounded variant with the given [maxSize] when
    [maxSize > 0] and the unbounded variant for zero and for negative
    [maxSize]; the store starts empty with the given default TTL; the
    sweep task runs, with an open [done] channel, exactly when
    [cleanupInterval > 0], and otherwise [done] stays nil. *)
Theorem New_selects_variant_and_starts_empty (ttl cleanupInterval size : Z) :
  ((0 < size)%Z →
     ∃ b : cacheWithSize K V,
       New ttl cleanupInterval size = Sized b ∧ maxSize b = size) ∧
  ((size ≤ 0)%Z →
     ∃ u : cacheWithoutSize K V, New ttl cleanupInterval size = Unsized u) ∧
  items (Iface.core (New (K:=K) (V:=V) ttl cleanupInterval size)) = ∅ ∧
  defaultTTL (Iface.core (New (K:=K) (V:=V) ttl cleanupInterval size)) = ttl ∧
  ((0 < cleanupInterval)%Z →
     running (Iface.core (New (K:=K) (V:=V) ttl cleanupInterval size)) = true ∧
     done (Iface.core (New (K:=K) (V:=V) ttl cleanupInterval size)) = ChanOpen) ∧
  ((cleanupInterval ≤ 0)%Z →
     running (Iface.core (New (K:=K) (V:=V) ttl cleanupInterval size)) = false ∧
     done (Iface.core (New (K:=K) (V:=V) ttl cleanupInterval size)) = ChanNil).
Proof.
  unfold New, start_cleanup.
  destruct (Z.gtb_spec size 0), (Z.gtb_spec cleanupInterval 0); simpl;
    repeat split; try done; try lia; intros _; eexists; done.
Qed.
End more_core.

(** ** Batches of the unbounded variant, and what does not depend on the
    order of ranging *)

Section more_batches.
Context {K : Type} `{Countable K} {V : Type}.
Implicit Types (c : cache K V) (u : cacheWithoutSize K V)
  (b : gmap K V) (rm : list (K * V)) (r : list (K * item V)).

Lemma size_union_bounds (m1 m2 : gmap K (item V)) :
  size m2 ≤ size (m1 ∪ m2) ≤ size m1 + size m2.
Proof.
  rewrite <- !size_dom, dom_union_L. split.
  - apply subseteq_size, union_subseteq_r.
  - rewrite size_union_alt.
    assert (size (dom m2 ∖ dom m1) ≤ size (dom m2)); [|lia].
    apply subseteq_size, subseteq_difference_l. done.
Qed.

(** X5: the unbounded [SetAllWithTTL] lays the batch over the store: every
    batch key maps to its batch value with the one expiration computed for
    the call, every other key reads as before, no entry is ever evicted
    (the size never drops and grows by at most [len(map)]), and an empty
    batch leaves the cache as it was. *)
Theorem unbounded_SetAllWithTTL_overlays_batch (now : Z) b rm (ttl : Z) u :
  range_of b rm →
  items (wos_cache (WithoutSize.SetAllWithTTL now b rm ttl u))
    = ((fun v => Item v (expiration_for now ttl)) <$> b) ∪ items (wos_cache u) ∧
  (∀ k v, b !! k = Some v →
     items (wos_cache (WithoutSize.SetAllWithTTL now b rm ttl u)) !! k
     = Some (Item v (expiration_for now ttl))) ∧
  (∀ k, b !! k = None →
     items (wos_cache (WithoutSize.SetAllWithTTL now b rm ttl u)) !! k
     = items (wos_cache u) !! k) ∧
  (Size (wos_cache u)
   ≤ Size (wos_cache (WithoutSize.SetAllWithTTL now b rm ttl u))
   ≤ Size (wos_cache u) + len b)%Z ∧
  (b = ∅ → WithoutSize.SetAllWithTTL now b rm ttl u = u).
Proof.
  intros Hb.
  assert (items (wos_cache (WithoutSize.SetAllWithTTL now b rm ttl u))
    = ((fun v => Item v (expiration_for now ttl)) <$> b) ∪ items (wos_cache u)) as Heq.
  { unfold WithoutSize.SetAllWithTTL. simpl. by apply insert_all_union. }
  split; [done|]. rewrite Heq. split; [|split; [|split]].
  - intros k v Hk. apply lookup_union_Some_l. by rewrite lookup_fmap, Hk.
  - intros k Hk. rewrite lookup_union_r; [done|]. by rewrite lookup_fmap, Hk.
  - unfold Size, len. rewrite Heq.
    pose proof (size_union_bounds
      ((fun v => Item v (expiration_for now ttl)) <$> b) (items (wos_cache u))) as Hsz.
    rewrite map_size_fmap in Hsz. lia.
  - intros ->. unfold range_of in Hb. rewrite map_to_list_empty in Hb.
    apply Permutation_nil_r in Hb as ->.
    destruct u as [c]. unfold WithoutSize.SetAllWithTTL, WithoutSize.on_cache.
    simpl. by rewrite set_items_same.
Qed.

(** X6: the sweep and the batch loops do not depend on the order in which
    the runtime ranges the maps: two sequences enumerating the store give
    the same [CleanExpired], and two sequences enumerating the batch give
    the same [SetAllWithTTL], in the unbounded and (for one order of the
    store) in the bounded variant. *)
Theorem sweep_and_batch_ignore_range_order (now : Z) r r' b rm rm' (ttl : Z)
    c u (s : cacheWithSize K V) (rs : list (K * item V)) :
  range_of (items c) r → range_of (items c) r' →
  range_of b rm → range_of b rm' →
  CleanExpired now r c = CleanExpired now r' c ∧
  WithoutSize.SetAllWithTTL now b rm ttl u = WithoutSize.SetAllWithTTL now b rm' ttl u ∧
  WithSize.SetAllWithTTL now rs b rm ttl s = WithSize.SetAllWithTTL now rs b rm' ttl s.
Proof.
  intros Hr Hr' Hb Hb'. split; [|split].
  - assert (items (CleanExpired now r c) = items (CleanExpired now r' c)) as Heq.
    { apply map_eq. intros k. by rewrite !lookup_CleanExpired. }
    unfold CleanExpired in *. simpl in Heq. by rewrite Heq.
  - unfold WithoutSize.SetAllWithTTL, WithoutSize.on_cache.
    by rewrite (insert_all_union _ b rm), (insert_all_union _ b rm').
  - unfold WithSize.SetAllWithTTL, WithSize.on_cache.
    by rewrite (insert_all_union _ b rm), (insert_all_union _ b rm').
Qed.
End more_batches.

(** ** Sweeps, time and expiry *)

Section more_expiry.
Context {K : Type} `{Countable K} {V : Type}.
Implicit Types (c : cache K V) (r : list (K * item V)).

Lemma CleanExpired_subseteq now r c :
  range_of (items c) r → items (CleanExpired now r c) ⊆ items c.
Proof.
  intros Hr. apply map_subseteq_spec. intros k it.
  rewrite lookup_CleanExpired by done.
  destruct (items c !! k) as [it'|]; [|done].
  by destruct (isExpired it' now).
Qed.

(** X7: a sweep at [now] changes no answer of [GetSafe] at [now]; after it
    [GetSafe] at [now] and [Get] answer alike on every key (no stale entry
    is left); a second sweep at the same [now] changes nothing; the size
    does not grow. *)
Theorem CleanExpired_is_invisible_to_GetSafe (zero : V) (now : Z) r r' c :
  range_of (items c) r →
  range_of (items (CleanExpired now r c)) r' →
  (∀ key, (GetSafe zero now key (CleanExpired now r c)).1
          = (GetSafe zero now key c).1) ∧
  (∀ key, (GetSafe zero now key (CleanExpired now r c)).1
          = (Get zero key (CleanExpired now r c)).1) ∧
  CleanExpired now r' (CleanExpired now r c) = CleanExpired now r c ∧
  (Size (CleanExpired now r c) ≤ Size c)%Z.
Proof.
  intros Hr Hr'. split; [|split; [|split]].
  - intros key. unfold GetSafe. rewrite lookup_CleanExpired by done.
    destruct (items c !! key) as [it|]; [|done].
    destruct (isExpired it now) eqn:E; simpl; [done|]. by rewrite E.
  - intros key. unfold GetSafe, Get. rewrite lookup_CleanExpired by done.
    destruct (items c !! key) as [it|]; [|done].
    destruct (isExpired it now) eqn:E; simpl; [done|]. by rewrite E.
  - assert (items (CleanExpired now r' (CleanExpired now r c))
            = items (CleanExpired now r c)) as Heq.
    { apply map_eq. intros k. rewrite (lookup_CleanExpired now r') by done.
      rewrite lookup_CleanExpired by done.
      destruct (items c !! k) as [it|]; [|done].
      destruct (isExpired it now) eqn:E; [done|]. by rewrite E. }
    change (CleanExpired now r' (CleanExpired now r c))
      with (set_items (CleanExpired now r c)
              (items (CleanExpired now r' (CleanExpired now r c)))).
    rewrite Heq. apply set_items_same.
  - unfold Size, len. apply inj_le.
    by apply map_subseteq_size, CleanExpired_subseteq.
Qed.

(** X8: expiry only moves one way with time: an entry expired at [now] is
    expired at every later time, so a key [GetSafe] finds at a later time
    it finds at every earlier time, with the same value, which is also the
    value [Get] returns. *)
Theorem expiry_is_monotone_in_time (zero : V) (now now' : Z) (key : K) c :
  (now ≤ now')%Z →
  (∀ it : item V, isExpired it now = true → isExpired it now' = true) ∧
  ((GetSafe zero now' key c).1.2 = true →
     (GetSafe zero now key c).1 = (GetSafe zero now' key c).1 ∧
     (Get zero key c).1 = (GetSafe zero now' key c).1).
Proof.
  intros Hle.
  assert (∀ it : item V, isExpired it now = true → isExpired it now' = true) as Hmono.
  { intros it. rewrite !isExpired_true_iff. lia. }
  split; [done|]. unfold GetSafe, Get.
  destruct (items c !! key) as [it|]; [|done].
  destruct (isExpired it now') eqn:E'; simpl; [done|]. intros _.
  destruct (isExpired it now) eqn:E; [|done].
  apply Hmono in E. congruence.
Qed.

(** X9: through either variant, an entry written by [SetWithTTL] at [now]
    with [ttl > 0] (clock at or after the epoch, [now + ttl] within
    [int64]) is found by [GetSafe] at every time up to and including
    [now + ttl] and missed at every later time; written with [ttl <= 0]
    it is found at every time. *)
Theorem SetWithTTL_GetSafe_window (zero : V) (now : Z) r (key : K) (value : V)
    (ttl : Z) (w : Cache K V) :
  ((0 < ttl)%Z → (0 ≤ now)%Z → (now + ttl ≤ max_int64)%Z →
     ∀ t, ((t ≤ now + ttl)%Z →
             Call.GetSafe zero t key (Iface.SetWithTTL now r key value ttl w)
             = (value, true)) ∧
          ((now + ttl < t)%Z →
             Call.GetSafe zero t key (Iface.SetWithTTL now r key value ttl w)
             = (zero, false))) ∧
  ((ttl ≤ 0)%Z →
     ∀ t, Call.GetSafe zero t key (Iface.SetWithTTL now r key value ttl w)
          = (value, true)).
Proof.
  assert (items (Iface.core (Iface.SetWithTTL now r key value ttl w)) !! key
          = Some (Item value (expiration_for now ttl))) as Hkey.
  { destruct w as [s|u]; simpl; apply lookup_insert_eq. }
  unfold Call.GetSafe, GetSafe. rewrite Hkey. split.
  - intros Hpos Hnow Hmax t.
    rewrite expiration_for_positive by done. unfold add_unix_nano.
    rewrite wrap64_id by (unfold min_int64, max_int64 in *; lia).
    split; intros Ht.
    + destruct (isExpired (Item value (now + ttl)) t) eqn:E; [|done].
      apply isExpired_true_iff in E. simpl in E. lia.
    + assert (isExpired (Item value (now + ttl)) t = true) as ->; [|done].
      apply isExpired_true_iff. simpl. lia.
  - intros Hle t. rewrite expiration_for_never by done. done.
Qed.
End more_expiry.

(** ** The bounded variant next to the unbounded one *)

Section more_bounded.
Context {K : Type} `{Countable K} {V : Type}.
Implicit Types (s : cacheWithSize K V) (b : gmap K V) (rm : list (K * V))
  (r : list (K * item V)).

(** X10: while there is room the bounded writers do what the unbounded
    ones do: [SetWithTTL] of a present key, or of a new key into a store
    with fewer than [maxSize] entries, and [SetAllWithTTL] with
    [size + len(map) <= maxSize], leave the same cache as the unbounded
    method on the same store, whatever the order of ranging. *)
Theorem bounded_writes_agree_with_unbounded_within_bound (now : Z) r (key : K)
    (value : V) (ttl : Z) b rm s :
  ((len (items (ws_cache s)) + 1 ≤ maxSize s)%Z ∨ is_Some (items (ws_cache s) !! key) →
     ws_cache (WithSize.SetWithTTL now r key value ttl s)
     = wos_cache (WithoutSize.SetWithTTL now key value ttl
                    (Build_cacheWithoutSize (ws_cache s)))) ∧
  ((len (items (ws_cache s)) + len b ≤ maxSize s)%Z →
     ws_cache (WithSize.SetAllWithTTL now r b rm ttl s)
     = wos_cache (WithoutSize.SetAllWithTTL now b rm ttl
                    (Build_cacheWithoutSize (ws_cache s)))) ∧
  maxSize (WithSize.SetWithTTL now r key value ttl s) = maxSize s ∧
  maxSize (WithSize.SetAllWithTTL now r b rm ttl s) = maxSize s.
Proof.
  split; [|split; [|done]].
  - intros Hroom. unfold WithSize.SetWithTTL, WithoutSize.SetWithTTL. simpl.
    destruct (Z.gtb_spec (len (items (ws_cache s)) + 1) (maxSize s)) as [Hfull|_];
      [|done].
    destruct Hroom as [Hroom|[it Hit]]; [lia|]. by rewrite Hit.
  - intros Hroom. unfold WithSize.SetAllWithTTL, WithoutSize.SetAllWithTTL. simpl.
    destruct (Z.gtb_spec (len (items (ws_cache s)) + len b) (maxSize s)); [lia|done].
Qed.

(** X11: when the bounded [SetAllWithTTL] evicts (overflow [x] with
    [0 < x < size]), the size it leaves is [maxSize] minus the number of
    batch keys still in the store after the eviction: it is [maxSize] only
    if no batch key survived, and lower by one for each one that did,
    although those keys needed no room. *)
Theorem bounded_SetAllWithTTL_overlap_undershoots (now : Z) r b rm (ttl : Z) s :
  range_of (items (ws_cache s)) r →
  range_of b rm →
  (maxSize s < len (items (ws_cache s)) + len b)%Z →
  (len (items (ws_cache s)) + len b - maxSize s < len (items (ws_cache s)))%Z →
  Size (ws_cache (WithSize.SetAllWithTTL now r b rm ttl s))
  = (maxSize s
     - Z.of_nat (size (dom b ∩ dom (delete_keys
         (take (Z.to_nat (len (items (ws_cache s)) + len b - maxSize s)) r.*1)
         (items (ws_cache s))))))%Z.
Proof.
  intros Hr Hb Hover Hsome. unfold Size.
  rewrite SetAllWithTTL_evicted by done.
  rewrite (insert_all_union _ b) by done.
  destruct (take_range_keys (items (ws_cache s)) r
              (Z.to_nat (len (items (ws_cache s)) + len b - maxSize s)) Hr)
    as (Hnd & Hin & Hlen).
  pose proof (size_delete_keys _ (items (ws_cache s)) Hnd Hin) as Hsurv.
  set (surv := delete_keys _ (items (ws_cache s))) in *.
  unfold len in *.
  rewrite <- (size_dom (_ ∪ surv)), dom_union_L, dom_fmap_L, size_union_alt.
  rewrite size_difference_alt, !size_dom.
  assert (size (dom surv ∩ dom b) ≤ size surv) as Hcap.
  { rewrite <- (size_dom surv). apply subseteq_size, intersection_subseteq_l. }
  rewrite (comm_L (∩) (dom b) (dom surv)).
  rewrite Hsurv, Hlen in *. lia.
Qed.
End more_bounded.

(** ** A sweep interleaved with other calls *)

Section more_sweep.
Context {K : Type} `{Countable K} {V : Type}.
Implicit Types (c : cache K V) (r : list (K * item V)).

(** X12: the delete phase of [CleanExpired] removes the keys collected by
    the scan phase whatever happened to them in between: a key whose entry
    was expired at the scan is absent after the sweep even if another call
    rewrote it with a fresh entry meanwhile; a key not collected (absent or
    not expired at the scan) is left as the calls in between left it, even
    with an expiration already past; with nothing in between the sweep is
    [CleanExpired]. *)
Theorem sweep_deletes_keys_rewritten_between_phases (now : Z) r
    (between : cache K V → cache K V) c :
  range_of (items c) r →
  (∀ key it, items c !! key = Some it → isExpired it now = true →
     items (CleanExpired_between now r between c) !! key = None) ∧
  (∀ key, items c !! key = None →
     items (CleanExpired_between now r between c) !! key
     = items (between c) !! key) ∧
  (∀ key it, items c !! key = Some it → isExpired it now = false →
     items (CleanExpired_between now r between c) !! key
     = items (between c) !! key) ∧
  CleanExpired_between now r (fun c => c) c = CleanExpired now r c.
Proof.
  intros Hr.
  assert (∀ key, key ∈ expired_keys now r ↔
            ∃ it, items c !! key = Some it ∧ isExpired it now = true) as Hkeys.
  { intros key. rewrite elem_of_expired_keys. split.
    - intros (it & Hin & Hexp). exists it. split; [|done].
      by apply (range_of_elem _ _ _ _ Hr).
    - intros (it & Hit & Hexp). exists it. split; [|done].
      by apply (range_of_elem _ _ _ _ Hr). }
  unfold CleanExpired_between. simpl. split; [|split; [|split; [|done]]].
  - intros key it Hit Hexp. rewrite lookup_delete_keys.
    rewrite decide_True; [done|]. apply Hkeys. eauto.
  - intros key Hnone. rewrite lookup_delete_keys.
    rewrite decide_False; [done|]. intros (it & Hit & _)%Hkeys. congruence.
  - intros key it Hit Hfresh. rewrite lookup_delete_keys.
    rewrite decide_False; [done|]. intros (it' & Hit' & Hexp)%Hkeys. congruence.
Qed.
End more_sweep.

(** ** Sequences of calls *)

Section more_calls.
Context {K : Type} `{Countable K} {V : Type}.
Implicit Types (w : Cache K V) (s : cacheWithSize K V) (c : Call.call (K:=K) (V:=V))
  (cs : list (Call.call (K:=K) (V:=V))).

Lemma same_config_refl w : Call.same_config w w.
Proof. by destruct w. Qed.

Lemma same_config_trans w1 w2 w3 :
  Call.same_config w1 w2 → Call.same_config w2 w3 → Call.same_config w1 w3.
Proof.
  unfold Call.same_config. intros [Ht Hv] [Ht' Hv'].
  split; [congruence|]. destruct w1, w2, w3; try done. congruence.
Qed.

Lemma step_keeps w c :
  sweep_armed (Iface.core w) →
  ∃ w', Call.step w c = Some w' ∧ sweep_armed (Iface.core w') ∧
        Call.same_config w w'.
Proof.
  intros Harmed. destruct c; simpl;
    try (eexists; split; [done|]; by destruct w as [[? ?]|[?]]).
  unfold Iface.Close. destruct w as [[c ms]|[c]]; simpl in *;
    rewrite (Close_armed c Harmed); eexists; (split; [done|]); done.
Qed.

Lemma run_keeps cs w :
  sweep_armed (Iface.core w) →
  ∃ w', Call.run w cs = Some w' ∧ sweep_armed (Iface.core w') ∧
        Call.same_config w w'.
Proof.
  revert w. induction cs as [|c cs IH]; intros w Harmed.
  - exists w. split; [done|]. split; [done|apply same_config_refl].
  - destruct (step_keeps w c Harmed) as (w1 & Hstep & Harmed1 & Hcfg1).
    destruct (IH w1 Harmed1) as (w2 & Hrun & Harmed2 & Hcfg2).
    exists w2. simpl. rewrite Hstep. split; [done|]. split; [done|].
    by apply (same_config_trans w w1 w2).
Qed.

Lemma calls_keep_config cs w :
  sweep_armed (Iface.core w) →
  ∃ w', Call.run w cs = Some w' ∧ Call.same_config w w'.
Proof.
  intros Harmed. destruct (run_keeps cs w Harmed) as (w' & Hrun & _ & Hcfg).
  by exists w'.
Qed.

(** X13: no sequence of calls on a cache returned by [New] panics, [Close]
    calls anywhere in it included, whatever the arguments and the order of
    ranging; the cache it ends in is of the variant [New] chose, with the
    same [maxSize] and default TTL, and its [done] channel is open if it is
    still running. *)
Theorem calls_never_panic (ttl cleanupInterval size : Z) cs :
  ∃ w, Call.run (New ttl cleanupInterval size) cs = Some w ∧
       sweep_armed (Iface.core w) ∧
       Call.same_config (New ttl cleanupInterval size) w.
Proof. apply run_keeps, New_sweep_armed. Qed.

Lemma step_within_bound s c :
  sweep_armed (ws_cache s) →
  (0 < maxSize s)%Z →
  (Size (ws_cache s) ≤ maxSize s)%Z →
  Call.admissible (Sized s) c →
  Call.batch_within (maxSize s) c →
  ∃ s', Call.step (Sized s) c = Some (Sized s') ∧
        sweep_armed (ws_cache s') ∧ maxSize s' = maxSize s ∧
        (Size (ws_cache s') ≤ maxSize s')%Z.
Proof.
  intros Harmed Hmax Hsize Hadm Hbatch.
  destruct c as [now r key v|now r key v ttl|now r m rm|now r m rm ttl
                |key| |now r| ]; simpl in *.
  - eexists. split; [done|]. split; [done|]. split; [done|].
    pose proof (size_bounded_SetWithTTL now r key v
                  (defaultTTL (ws_cache s)) s Hmax Hadm).
    unfold WithSize.Set_. simpl in *. lia.
  - eexists. split; [done|]. split; [done|]. split; [done|].
    pose proof (size_bounded_SetWithTTL now r key v ttl s Hmax Hadm).
    simpl in *. lia.
  - destruct Hadm as [Hr Hb]. eexists. split; [done|]. split; [done|].
    split; [done|].
    pose proof (size_bounded_SetAllWithTTL now r m rm
                  (defaultTTL (ws_cache s)) s Hr Hb).
    unfold WithSize.SetAll. simpl in *. lia.
  - destruct Hadm as [Hr Hb]. eexists. split; [done|]. split; [done|].
    split; [done|].
    pose proof (size_bounded_SetAllWithTTL now r m rm ttl s Hr Hb).
    simpl in *. lia.
  - eexists. split; [done|]. split; [done|]. split; [done|]. simpl.
    unfold Size, len in *. simpl. rewrite map_size_delete.
    destruct (items (ws_cache s) !! key); simpl; lia.
  - eexists. split; [done|]. split; [done|]. split; [done|]. simpl.
    unfold Size, len. simpl. rewrite map_size_empty. lia.
  - eexists. split; [done|]. split; [done|]. split; [done|]. simpl.
    pose proof (CleanExpired_subseteq now r (ws_cache s) Hadm) as Hsub.
    apply map_subseteq_size in Hsub. unfold Size, len in *. simpl in *. lia.
  - rewrite (Close_armed _ Harmed). eexists. split; [done|]. split; [done|].
    split; [done|]. simpl. unfold Size, len. simpl. rewrite map_size_empty. lia.
Qed.

Lemma run_within_bound cs s :
  sweep_armed (ws_cache s) →
  (0 < maxSize s)%Z →
  (Size (ws_cache s) ≤ maxSize s)%Z →
  Call.admissible_run (Sized s) cs →
  Forall (Call.batch_within (maxSize s)) cs →
  ∃ s', Call.run (Sized s) cs = Some (Sized s') ∧ maxSize s' = maxSize s ∧
        (Size (ws_cache s') ≤ maxSize s')%Z.
Proof.
  revert s. induction cs as [|c cs IH]; intros s Harmed Hmax Hsize Hadm Hbatch.
  - by exists s.
  - apply Forall_cons in Hbatch as [Hb Hbatch]. destruct Hadm as [Ha Hadm].
    destruct (step_within_bound s c Harmed Hmax Hsize Ha Hb)
      as (s1 & Hstep & Harmed1 & Hmax1 & Hsize1).
    rewrite Hstep in Hadm. rewrite <- Hmax1 in Hbatch.
    destruct (IH s1 Harmed1 ltac:(lia) Hsize1 Hadm Hbatch)
      as (s2 & Hrun & Hmax2 & Hsize2).
    exists s2. simpl. rewrite Hstep. split; [done|]. split; [congruence|done].
Qed.

(** X14: on a cache built by [New] with [maxSize = M > 0], a sequence of
    [Set], [SetWithTTL], [SetAll], [SetAllWithTTL], [Remove], [Clear],
    [CleanExpired] and [Close] calls in which every batch has at most [M]
    entries never panics and ends with at most [M] entries, whatever the
    clock readings and the orders of ranging. *)
Theorem bounded_size_invariant (ttl cleanupInterval size : Z) cs :
  (0 < size)%Z →
  Call.admissible_run (New ttl cleanupInterval size) cs →
  Forall (Call.batch_within size) cs →
  ∃ w, Call.run (New ttl cleanupInterval size) cs = Some w ∧
       Call.bound_of w = size ∧
       (Iface.Size w ≤ size)%Z.
Proof.
  intros Hpos Hadm Hbatch.
  pose proof (New_sweep_armed (K:=K) (V:=V) ttl cleanupInterval size) as Harmed.
  assert (∃ s : cacheWithSize K V,
            New ttl cleanupInterval size = Sized s ∧ maxSize s = size ∧
            items (ws_cache s) = ∅) as (s & Hnew & Hmax & Hempty).
  { unfold New, start_cleanup. destruct (Z.gtb_spec size 0); [|lia].
    destruct (cleanupInterval >? 0)%Z; simpl; eexists; done. }
  rewrite Hnew in *. subst size.
  destruct (run_within_bound cs s Harmed Hpos) as (s' & Hrun & Hmax' & Hsize');
    try done.
  { unfold Size, len. rewrite Hempty, map_size_empty. lia. }
  exists (Sized s'). split; [done|]. split; [done|].
  unfold Iface.Size. simpl. lia.
Qed.

Lemma lookup_written_key (now : Z) (r : list (K * item V)) (key : K) (value : V)
    (ttl : Z) w :
  items (Iface.core (Iface.SetWithTTL now r key value ttl w)) !! key
  = Some (Item value (expiration_for now ttl)).
Proof. destruct w as [s|u]; simpl; apply lookup_insert_eq. Qed.

Lemma Iface_Set_default (now : Z) (r : list (K * item V)) (key : K) (value : V) w :
  Iface.Set_ now r key value w
  = Iface.SetWithTTL now r key value (defaultTTL (Iface.core w)) w.
Proof. by destruct w. Qed.

(** X15: the default TTL given to [New] is what [Set] uses after any
    sequence of calls: with a default TTL [<= 0] a value written by [Set]
    is found by [GetSafe] at every time; with a default TTL [d > 0] (clock
    at or after the epoch, [now + d] within [int64]) it is found up to
    [now + d] and missed afterwards. *)
Theorem Set_applies_default_TTL_of_New (zero : V) (d cleanupInterval size : Z) cs w
    (now : Z) (r : list (K * item V)) (key : K) (value : V) (t : Z) :
  Call.run (New d cleanupInterval size) cs = Some w →
  ((d ≤ 0)%Z →
     Call.GetSafe zero t key (Iface.Set_ now r key value w) = (value, true)) ∧
  ((0 < d)%Z → (0 ≤ now)%Z → (now + d ≤ max_int64)%Z →
     ((t ≤ now + d)%Z →
        Call.GetSafe zero t key (Iface.Set_ now r key value w) = (value, true)) ∧
     ((now + d < t)%Z →
        Call.GetSafe zero t key (Iface.Set_ now r key value w) = (zero, false))).
Proof.
  intros Hrun.
  destruct (calls_keep_config cs (New d cleanupInterval size)) as (w' & Hrun' & Hcfg).
  { apply New_sweep_armed. }
  rewrite Hrun in Hrun'. injection Hrun' as <-.
  assert (defaultTTL (Iface.core w) = d) as Hd.
  { destruct Hcfg as [<- _]. unfold New, start_cleanup.
    by destruct (size >? 0)%Z, (cleanupInterval >? 0)%Z. }
  rewrite Iface_Set_default, Hd. unfold Call.GetSafe, GetSafe.
  rewrite lookup_written_key. split.
  - intros Hle. by rewrite expiration_for_never.
  - intros Hpos Hnow Hmax. rewrite expiration_for_positive by done.
    unfold add_unix_nano.
    rewrite wrap64_id by (unfold min_int64, max_int64 in *; lia).
    split; intros Ht.
    + destruct (isExpired (Item value (now + d)) t) eqn:E; [|done].
      apply isExpired_true_iff in E. simpl in E. lia.
    + assert (isExpired (Item value (now + d)) t = true) as ->; [|done].
      apply isExpired_true_iff. simpl. lia.
Qed.
End more_calls.

(** ** Edge cases of the bounded writers *)

Section more_edges.
Context {K : Type} `{Countable K} {V : Type}.
Implicit Types (w : Cache K V) (s : cacheWithSize K V) (r : list (K * item V)).

(** X16: a [SetAllWithTTL] of an empty map changes nothing on a bounded
    store within its bound, and trims a store above its bound (as an
    oversized batch leaves it) to exactly [maxSize] of its entries. *)
Theorem bounded_SetAll_of_empty_batch (now : Z) r (ttl : Z) s :
  (0 < maxSize s)%Z →
  range_of (items (ws_cache s)) r →
  ((Size (ws_cache s) ≤ maxSize s)%Z →
     WithSize.SetAllWithTTL now r ∅ [] ttl s = s) ∧
  ((maxSize s < Size (ws_cache s))%Z →
     Size (ws_cache (WithSize.SetAllWithTTL now r ∅ [] ttl s)) = maxSize s ∧
     items (ws_cache (WithSize.SetAllWithTTL now r ∅ [] ttl s))
       ⊆ items (ws_cache s)).
Proof.
  intros Hmax Hr.
  assert (len (∅ : gmap K V) = 0%Z) as Hlen0 by (unfold len; by rewrite map_size_empty).
  unfold Size. split.
  - intros Hfit.
    assert (items (ws_cache (WithSize.SetAllWithTTL now r ∅ [] ttl s))
            = items (ws_cache s)) as Heq.
    { rewrite SetAllWithTTL_kept by lia. done. }
    destruct s as [c ms]. unfold WithSize.SetAllWithTTL, WithSize.on_cache in *.
    simpl in *. rewrite Heq. by rewrite set_items_same.
  - intros Hover.
    rewrite SetAllWithTTL_evicted by lia.
    change (insert_all (expiration_for now ttl) [] ?m) with m.
    destruct (take_range_keys (items (ws_cache s)) r
                (Z.to_nat (len (items (ws_cache s)) + len (∅ : gmap K V) - maxSize s)) Hr)
      as (Hnd & Hin & Hcount).
    split.
    + unfold len at 1. rewrite size_delete_keys by done.
      rewrite Hcount. unfold len in *. lia.
    + apply map_subseteq_spec. intros k it. rewrite lookup_delete_keys.
      by case_decide.
Qed.

(** X17: writing a new key and removing it again gives back the cache as
    it was in the unbounded variant and in the bounded one with room; in a
    bounded store holding [maxSize] entries or more the entry evicted to
    make room stays lost: the store is one entry smaller than before. *)
Theorem SetWithTTL_then_Remove (now : Z) r (key : K) (value : V) (ttl : Z) w :
  range_of (items (Iface.core w)) r →
  items (Iface.core w) !! key = None →
  (match w with
   | Unsized _ => True
   | Sized s => (len (items (ws_cache s)) + 1 ≤ maxSize s)%Z
   end →
   Call.Remove key (Iface.SetWithTTL now r key value ttl w) = w) ∧
  (match w with
   | Unsized _ => False
   | Sized s => (0 < maxSize s ≤ len (items (ws_cache s)))%Z
   end →
   Iface.Size (Call.Remove key (Iface.SetWithTTL now r key value ttl w))
   = (Iface.Size w - 1)%Z ∧
   ∃ k it, items (Iface.core w) !! k = Some it ∧
     items (Iface.core (Call.Remove key (Iface.SetWithTTL now r key value ttl w)))
       !! k = None).
Proof.
  intros Hr Hnone. split.
  - destruct w as [[c ms]|[c]]; simpl in *.
    + intros Hroom.
      unfold Call.Remove, Call.promoted, WithSize.SetWithTTL, WithSize.on_cache,
        Remove, set_items. simpl.
      destruct (Z.gtb_spec (len (items c) + 1) ms); [lia|].
      rewrite delete_insert_id by done. by destruct c.
    + intros _.
      unfold Call.Remove, Call.promoted, WithoutSize.SetWithTTL,
        WithoutSize.on_cache, Remove, set_items. simpl.
      rewrite delete_insert_id by done. by destruct c.
  - destruct w as [[c ms]|[c]]; [|done]. simpl in *. intros [Hpos Hfull].
    unfold Iface.Size, Size. simpl.
    destruct (Z.gtb_spec (len (items c) + 1) ms); [|lia].
    rewrite Hnone. unfold len in *.
    destruct (range_of_nonempty _ r Hr) as (k & it & r' & -> & Hk); [lia|].
    simpl. rewrite delete_insert_id.
    2: { rewrite lookup_delete_ne; [done|]. intros ->. congruence. }
    split.
    + rewrite map_size_delete_Some by eauto.
      assert (size (items c) ≠ 0); [|lia].
      intros Hz%map_size_empty_iff. by rewrite Hz, lookup_empty in Hk.
    + exists k, it. split; [done|]. apply lookup_delete_eq.
Qed.
End more_edges.

(** * The further properties at concrete inputs *)

(** Removing a stale key, and a missing one, from the sample cache. *)
Lemma Remove_removes_only_key_witness :
  Get 0 "stale" (Remove "stale" sample_cache)
    = (0, false, Remove "stale" sample_cache) ∧
  Get 0 "fresh" (Remove "stale" sample_cache)
    = ((Get 0 "fresh" sample_cache).1, Remove "stale" sample_cache) ∧
  Remove "absent" sample_cache = sample_cache ∧
  Size (Remove "stale" sample_cache) = (Size sample_cache - 1)%Z.
Proof.
  destruct (Remove_removes_only_key 0 "stale" sample_cache)
    as (Hgone & Hother & _ & Hsize & _).
  destruct (Remove_removes_only_key 0 "absent" sample_cache)
    as (_ & _ & Hnoop & _).
  split; [exact Hgone|]. split; [apply Hother; discriminate|].
  split; [apply Hnoop; reflexivity|].
  apply Hsize. exists (Item 2 100%Z). reflexivity.
Defined.

(** The sample cache holds a stale entry and is not empty. *)
Lemma IsEmpty_iff_every_Get_misses_witness :
  items sample_cache !! "stale" = Some (Item 2 100%Z) ∧
  isExpired (Item 2 100%Z) 150 = true ∧
  IsEmpty sample_cache = false ∧
  IsEmpty (resetItems sample_cache) = true.
Proof.
  destruct (IsEmpty_iff_every_Get_misses 0 sample_cache) as (_ & _ & _ & Hstale).
  destruct (IsEmpty_iff_every_Get_misses 0 (resetItems sample_cache)) as (Hempty & _).
  split; [reflexivity|]. split; [reflexivity|].
  split; [apply (Hstale "stale" (Item 2 100%Z) 150%Z); reflexivity|].
  apply Hempty. reflexivity.
Defined.

(** Clearing the bounded sample cache. *)
Lemma Clear_is_removing_every_key_witness :
  range_of (items (Iface.core (Sized sample_bounded))) (map_to_list sample_items) ∧
  Call.Clear (Sized sample_bounded)
    = foldl (fun w key => Call.Remove key w) (Sized sample_bounded)
        (map_to_list sample_items).*1 ∧
  Call.bound_of (Call.Clear (Sized sample_bounded)) = 2%Z.
Proof.
  assert (range_of (items (Iface.core (Sized sample_bounded)))
            (map_to_list sample_items)) as Hr by range_by_computation.
  destruct (Clear_is_removing_every_key (Sized sample_bounded) _ Hr)
    as (Hfold & _ & _ & Hbound & _).
  split; [exact Hr|]. split; [exact Hfold|exact Hbound].
Defined.

(** [New] with a positive and with a negative [maxSize], with and without
    a cleanup interval. *)
Lemma New_selects_variant_and_starts_empty_witness :
  (0 < 1)%Z ∧ (-3 ≤ 0)%Z ∧ (0 < 5)%Z ∧
  (∃ b : cacheWithSize string nat, New 0 5 1 = Sized b ∧ maxSize b = 1%Z) ∧
  (∃ u : cacheWithoutSize string nat, New 0 5 (-3) = Unsized u) ∧
  (running (Iface.core (New (K:=string) (V:=nat) 0 5 1)) = true ∧
   done (Iface.core (New (K:=string) (V:=nat) 0 5 1)) = ChanOpen).
Proof.
  assert (0 < 1)%Z as Hpos by lia.
  assert (-3 ≤ 0)%Z as Hneg by lia.
  assert (0 < 5)%Z as Hint by lia.
  destruct (New_selects_variant_and_starts_empty (K:=string) (V:=nat) 0 5 1)
    as (Hsized & _ & _ & _ & Hrun & _).
  destruct (New_selects_variant_and_starts_empty (K:=string) (V:=nat) 0 5 (-3))
    as (_ & Hunsized & _).
  split; [exact Hpos|]. split; [exact Hneg|]. split; [exact Hint|].
  split; [exact (Hsized Hpos)|]. split; [exact (Hunsized Hneg)|exact (Hrun Hint)].
Defined.

(** A batch rewriting ["stale"] laid over the unbounded sample cache. *)
Lemma unbounded_SetAllWithTTL_overlays_batch_witness :
  range_of sample_overlap (map_to_list sample_overlap) ∧
  items (wos_cache (WithoutSize.SetAllWithTTL 1000 sample_overlap
                      (map_to_list sample_overlap) 60
                      (Build_cacheWithoutSize sample_cache))) !! "stale"
    = Some (Item 7 (expiration_for 1000 60)) ∧
  items (wos_cache (WithoutSize.SetAllWithTTL 1000 sample_overlap
                      (map_to_list sample_overlap) 60
                      (Build_cacheWithoutSize sample_cache))) !! "fresh"
    = items sample_cache !! "fresh".
Proof.
  assert (range_of sample_overlap (map_to_list sample_overlap)) as Hb
    by range_by_computation.
  destruct (unbounded_SetAllWithTTL_overlays_batch 1000 _ _ 60
              (Build_cacheWithoutSize sample_cache) Hb)
    as (_ & Hin & Hout & _).
  split; [exact Hb|]. split; [apply Hin; reflexivity|apply Hout; reflexivity].
Defined.

(** The store and the batch ranged forwards and backwards. *)
Lemma sweep_and_batch_ignore_range_order_witness :
  range_of (items sample_cache) (map_to_list sample_items) ∧
  range_of (items sample_cache) (reverse (map_to_list sample_items)) ∧
  range_of sample_batch (map_to_list sample_batch) ∧
  range_of sample_batch (reverse (map_to_list sample_batch)) ∧
  CleanExpired 150 (map_to_list sample_items) sample_cache
    = CleanExpired 150 (reverse (map_to_list sample_items)) sample_cache ∧
  WithSize.SetAllWithTTL 1000 (map_to_list sample_items) sample_batch
      (map_to_list sample_batch) 60 sample_bounded
    = WithSize.SetAllWithTTL 1000 (map_to_list sample_items) sample_batch
        (reverse (map_to_list sample_batch)) 60 sample_bounded.
Proof.
  assert (range_of (items sample_cache) (map_to_list sample_items)) as Hr
    by range_by_computation.
  assert (range_of (items sample_cache) (reverse (map_to_list sample_items))) as Hr'
    by (unfold range_of; apply reverse_Permutation).
  assert (range_of sample_batch (map_to_list sample_batch)) as Hb
    by range_by_computation.
  assert (range_of sample_batch (reverse (map_to_list sample_batch))) as Hb'
    by (unfold range_of; apply reverse_Permutation).
  destruct (sweep_and_batch_ignore_range_order 150 _ _ _ _ _ 60 sample_cache
              (Build_cacheWithoutSize sample_cache) sample_bounded
              (map_to_list sample_items) Hr Hr' Hb Hb')
    as (Hsweep & _ & _).
  destruct (sweep_and_batch_ignore_range_order 1000 _ _ _ _ _ 60 sample_cache
              (Build_cacheWithoutSize sample_cache) sample_bounded
              (map_to_list sample_items) Hr Hr' Hb Hb')
    as (_ & _ & Hbatch).
  split; [exact Hr|]. split; [exact Hr'|]. split; [exact Hb|].
  split; [exact Hb'|]. split; [exact Hsweep|exact Hbatch].
Defined.

(** A sweep of the sample cache at time 150, and a second one. *)
Lemma CleanExpired_is_invisible_to_GetSafe_witness :
  range_of (items sample_cache) (map_to_list sample_items) ∧
  range_of (items (CleanExpired 150 (map_to_list sample_items) sample_cache))
    (map_to_list (items (CleanExpired 150 (map_to_list sample_items) sample_cache))) ∧
  (GetSafe 0 150 "stale" (CleanExpired 150 (map_to_list sample_items) sample_cache)).1
    = (GetSafe 0 150 "stale" sample_cache).1 ∧
  CleanExpired 150
      (map_to_list (items (CleanExpired 150 (map_to_list sample_items) sample_cache)))
      (CleanExpired 150 (map_to_list sample_items) sample_cache)
    = CleanExpired 150 (map_to_list sample_items) sample_cache ∧
  (Size (CleanExpired 150 (map_to_list sample_items) sample_cache)
   ≤ Size sample_cache)%Z.
Proof.
  assert (range_of (items sample_cache) (map_to_list sample_items)) as Hr
    by range_by_computation.
  assert (range_of (items (CleanExpired 150 (map_to_list sample_items) sample_cache))
            (map_to_list (items (CleanExpired 150 (map_to_list sample_items)
                                   sample_cache)))) as Hr'
    by range_by_computation.
  destruct (CleanExpired_is_invisible_to_GetSafe 0 150 _ _ sample_cache Hr Hr')
    as (Hsame & _ & Hagain & Hsize).
  split; [exact Hr|]. split; [exact Hr'|]. split; [apply Hsame|].
  split; [exact Hagain|exact Hsize].
Defined.

(** The entry expiring at 200, read at 150 and at 180. *)
Lemma expiry_is_monotone_in_time_witness :
  (150 ≤ 180)%Z ∧
  (GetSafe 0 180 "fresh" sample_cache).1.2 = true ∧
  (GetSafe 0 150 "fresh" sample_cache).1 = (GetSafe 0 180 "fresh" sample_cache).1 ∧
  (Get 0 "fresh" sample_cache).1 = (GetSafe 0 180 "fresh" sample_cache).1.
Proof.
  assert (150 ≤ 180)%Z as Hle by lia.
  assert ((GetSafe 0 180 "fresh" sample_cache).1.2 = true) as Hfound by reflexivity.
  destruct (expiry_is_monotone_in_time 0 150 180 "fresh" sample_cache Hle)
    as (_ & Hearlier).
  split; [exact Hle|]. split; [exact Hfound|]. exact (Hearlier Hfound).
Defined.

(** A write at 1000 with a TTL of 60, read at 1060 and at 1061; a write
    with a TTL of 0, read much later. *)
Lemma SetWithTTL_GetSafe_window_witness :
  (0 < 60)%Z ∧ (0 ≤ 1000)%Z ∧ (1000 + 60 ≤ max_int64)%Z ∧
  (1060 ≤ 1000 + 60)%Z ∧ (1000 + 60 < 1061)%Z ∧ (0 ≤ 0)%Z ∧
  Call.GetSafe 0 1060 "k"
    (Iface.SetWithTTL 1000 (map_to_list sample_items) "k" 5 60 (Sized sample_bounded))
    = (5, true) ∧
  Call.GetSafe 0 1061 "k"
    (Iface.SetWithTTL 1000 (map_to_list sample_items) "k" 5 60 (Sized sample_bounded))
    = (0, false) ∧
  Call.GetSafe 0 999999 "k"
    (Iface.SetWithTTL 1000 [] "k" 5 0 (Unsized (Build_cacheWithoutSize sample_cache)))
    = (5, true).
Proof.
  assert (0 < 60)%Z as Hpos by lia.
  assert (0 ≤ 1000)%Z as Hnow by lia.
  assert (1000 + 60 ≤ max_int64)%Z as Hmax by (unfold max_int64; lia).
  assert (1060 ≤ 1000 + 60)%Z as Hin by lia.
  assert (1000 + 60 < 1061)%Z as Hout by lia.
  assert (0 ≤ 0)%Z as Hzero by lia.
  destruct (SetWithTTL_GetSafe_window 0 1000 (map_to_list sample_items) "k" 5 60
              (Sized sample_bounded)) as (Hwindow & _).
  destruct (SetWithTTL_GetSafe_window 0 1000 [] "k" 5 0
              (Unsized (Build_cacheWithoutSize sample_cache))) as (_ & Hnever).
  split; [exact Hpos|]. split; [exact Hnow|]. split; [exact Hmax|].
  split; [exact Hin|]. split; [exact Hout|]. split; [exact Hzero|].
  split; [exact (proj1 (Hwindow Hpos Hnow Hmax 1060%Z) Hin)|].
  split; [exact (proj2 (Hwindow Hpos Hnow Hmax 1061%Z) Hout)|].
  exact (Hnever Hzero 999999%Z).
Defined.

(** A present key written into the over-full sample store, and a batch
    that fits the empty store of bound 1. *)
Lemma bounded_writes_agree_with_unbounded_within_bound_witness :
  is_Some (items (ws_cache sample_bounded) !! "stale") ∧
  (len (items (ws_cache scenario_empty)) + len sample_overlap
   ≤ maxSize scenario_empty)%Z ∧
  ws_cache (WithSize.SetWithTTL 1000 (map_to_list sample_items) "stale" 9 60
              sample_bounded)
    = wos_cache (WithoutSize.SetWithTTL 1000 "stale" 9 60
                   (Build_cacheWithoutSize (ws_cache sample_bounded))) ∧
  ws_cache (WithSize.SetAllWithTTL 1000 [] sample_overlap
              (map_to_list sample_overlap) 60 scenario_empty)
    = wos_cache (WithoutSize.SetAllWithTTL 1000 sample_overlap
                   (map_to_list sample_overlap) 60
                   (Build_cacheWithoutSize (ws_cache scenario_empty))).
Proof.
  assert (is_Some (items (ws_cache sample_bounded) !! "stale")) as Hpresent
    by (exists (Item 2 100%Z); reflexivity).
  assert (len (items (ws_cache scenario_empty)) + len sample_overlap
          ≤ maxSize scenario_empty)%Z as Hfit by (vm_compute; discriminate).
  destruct (bounded_writes_agree_with_unbounded_within_bound 1000
              (map_to_list sample_items) "stale" 9 60 sample_overlap
              (map_to_list sample_overlap) sample_bounded) as (Hset & _).
  destruct (bounded_writes_agree_with_unbounded_within_bound 1000
              [] "stale" 9 60 sample_overlap
              (map_to_list sample_overlap) scenario_empty) as (_ & Hall & _).
  split; [exact Hpresent|]. split; [exact Hfit|].
  split; [exact (Hset (or_intror Hpresent))|exact (Hall Hfit)].
Defined.

(** A batch that only rewrites ["stale"], written into the sample store of
    three entries and bound 2. *)
Lemma bounded_SetAllWithTTL_overlap_undershoots_witness :
  range_of (items (ws_cache sample_bounded)) (map_to_list sample_items) ∧
  range_of sample_overlap (map_to_list sample_overlap) ∧
  (maxSize sample_bounded
   < len (items (ws_cache sample_bounded)) + len sample_overlap)%Z ∧
  (len (items (ws_cache sample_bounded)) + len sample_overlap - maxSize sample_bounded
   < len (items (ws_cache sample_bounded)))%Z ∧
  Size (ws_cache (WithSize.SetAllWithTTL 1000 (map_to_list sample_items)
                    sample_overlap (map_to_list sample_overlap) 60 sample_bounded))
  = (maxSize sample_bounded
     - Z.of_nat (size (dom sample_overlap ∩ dom (delete_keys
         (take (Z.to_nat (len (items (ws_cache sample_bounded)) + len sample_overlap
                          - maxSize sample_bounded))
            (map_to_list sample_items).*1)
         (items (ws_cache sample_bounded))))))%Z.
Proof.
  assert (range_of (items (ws_cache sample_bounded)) (map_to_list sample_items)) as Hr
    by range_by_computation.
  assert (range_of sample_overlap (map_to_list sample_overlap)) as Hb
    by range_by_computation.
  assert (maxSize sample_bounded
          < len (items (ws_cache sample_bounded)) + len sample_overlap)%Z as Hover
    by reflexivity.
  assert (len (items (ws_cache sample_bounded)) + len sample_overlap
            - maxSize sample_bounded
          < len (items (ws_cache sample_bounded)))%Z as Hsome
    by reflexivity.
  split; [exact Hr|]. split; [exact Hb|]. split; [exact Hover|].
  split; [exact Hsome|].
  exact (bounded_SetAllWithTTL_overlap_undershoots 1000 _ _ _ 60 sample_bounded
           Hr Hb Hover Hsome).
Defined.

(** A sweep at 150 during which ["stale"] is rewritten to expire at 999:
    the fresh entry is deleted all the same. *)
Lemma sweep_deletes_keys_rewritten_between_phases_witness :
  range_of (items sample_cache) (map_to_list sample_items) ∧
  items sample_cache !! "stale" = Some (Item 2 100%Z) ∧
  isExpired (Item 2 100%Z) 150 = true ∧
  items (sample_refresh sample_cache) !! "stale" = Some (Item 9 999%Z) ∧
  isExpired (Item 9 999%Z) 150 = false ∧
  items (CleanExpired_between 150 (map_to_list sample_items) sample_refresh
           sample_cache) !! "stale" = None.
Proof.
  assert (range_of (items sample_cache) (map_to_list sample_items)) as Hr
    by range_by_computation.
  destruct (sweep_deletes_keys_rewritten_between_phases 150 _ sample_refresh
              sample_cache Hr) as (Hgone & _).
  split; [exact Hr|]. split; [reflexivity|]. split; [reflexivity|].
  split; [reflexivity|]. split; [reflexivity|].
  apply (Hgone "stale" (Item 2 100%Z)); reflexivity.
Defined.

(** The sample sequence of calls on the cache of [New(0, 5, 2)]. *)
Lemma bounded_size_invariant_witness :
  (0 < 2)%Z ∧
  Call.admissible_run (New 0 5 2) sample_calls ∧
  Forall (Call.batch_within 2) sample_calls ∧
  Call.run (New 0 5 2) sample_calls = Some sample_final ∧
  (∃ w, Call.run (New 0 5 2) sample_calls = Some w ∧
        Call.bound_of w = 2%Z ∧ (Iface.Size w ≤ 2)%Z).
Proof.
  assert (0 < 2)%Z as Hpos by lia.
  assert (Call.admissible_run (New 0 5 2) sample_calls) as Hadm
    by (simpl; repeat split; range_by_computation).
  assert (Forall (Call.batch_within 2) sample_calls) as Hbatch
    by (repeat constructor; vm_compute; discriminate).
  split; [exact Hpos|]. split; [exact Hadm|]. split; [exact Hbatch|].
  split; [vm_compute; reflexivity|].
  exact (bounded_size_invariant 0 5 2 sample_calls Hpos Hadm Hbatch).
Defined.

(** A [Set] after the sample sequence (default TTL 0), and a [Set] on a
    fresh cache with default TTL 100. *)
Lemma Set_applies_default_TTL_of_New_witness :
  Call.run (New 0 5 2) sample_calls = Some sample_final ∧
  Call.run (New (K:=string) (V:=nat) 100 0 0) [] = Some (New 100 0 0) ∧
  (0 ≤ 0)%Z ∧ (0 < 100)%Z ∧ (0 ≤ 1000)%Z ∧ (1000 + 100 ≤ max_int64)%Z ∧
  (1100 ≤ 1000 + 100)%Z ∧
  Call.GetSafe 0 999999 "k"
    (Iface.Set_ 1000 [("stale", Item 7 0%Z)] "k" 5 sample_final) = (5, true) ∧
  Call.GetSafe 0 1100 "k" (Iface.Set_ 1000 [] "k" 5 (New 100 0 0)) = (5, true).
Proof.
  assert (Call.run (New 0 5 2) sample_calls = Some sample_final) as Hrun
    by (vm_compute; reflexivity).
  assert (Call.run (New (K:=string) (V:=nat) 100 0 0) [] = Some (New 100 0 0)) as Hrun'
    by reflexivity.
  assert (0 ≤ 0)%Z as Hzero by lia.
  assert (0 < 100)%Z as Hpos by lia.
  assert (0 ≤ 1000)%Z as Hnow by lia.
  assert (1000 + 100 ≤ max_int64)%Z as Hmax by (unfold max_int64; lia).
  assert (1100 ≤ 1000 + 100)%Z as Hin by lia.
  destruct (Set_applies_default_TTL_of_New 0 0 5 2 sample_calls sample_final
              1000 [("stale", Item 7 0%Z)] "k" 5 999999 Hrun) as (Hnever & _).
  destruct (Set_applies_default_TTL_of_New 0 100 0 0 [] (New 100 0 0)
              1000 [] "k" 5 1100 Hrun') as (_ & Hwindow).
  split; [exact Hrun|]. split; [exact Hrun'|]. split; [exact Hzero|].
  split; [exact Hpos|]. split; [exact Hnow|]. split; [exact Hmax|].
  split; [exact Hin|]. split; [exact (Hnever Hzero)|].
  exact (proj1 (Hwindow Hpos Hnow Hmax) Hin).
Defined.

(** An empty batch written into the over-full sample store, and into the
    empty store of bound 1. *)
Lemma bounded_SetAll_of_empty_batch_witness :
  (0 < maxSize sample_bounded)%Z ∧
  range_of (items (ws_cache sample_bounded)) (map_to_list sample_items) ∧
  (maxSize sample_bounded < Size (ws_cache sample_bounded))%Z ∧
  Size (ws_cache (WithSize.SetAllWithTTL 1000 (map_to_list sample_items) ∅ [] 60
                    sample_bounded)) = maxSize sample_bounded ∧
  (0 < maxSize scenario_empty)%Z ∧
  range_of (items (ws_cache scenario_empty)) [] ∧
  (Size (ws_cache scenario_empty) ≤ maxSize scenario_empty)%Z ∧
  WithSize.SetAllWithTTL 1000 [] ∅ [] 60 scenario_empty = scenario_empty.
Proof.
  assert (0 < maxSize sample_bounded)%Z as Hmax by reflexivity.
  assert (range_of (items (ws_cache sample_bounded)) (map_to_list sample_items)) as Hr
    by range_by_computation.
  assert (maxSize sample_bounded < Size (ws_cache sample_bounded))%Z as Hover
    by reflexivity.
  assert (0 < maxSize scenario_empty)%Z as Hmax' by reflexivity.
  assert (range_of (items (ws_cache scenario_empty)) []) as Hr'
    by range_by_computation.
  assert (Size (ws_cache scenario_empty) ≤ maxSize scenario_empty)%Z as Hfit
    by (vm_compute; discriminate).
  destruct (bounded_SetAll_of_empty_batch 1000 _ 60 sample_bounded Hmax Hr)
    as (_ & Htrim).
  destruct (bounded_SetAll_of_empty_batch 1000 _ 60 scenario_empty Hmax' Hr')
    as (Hnoop & _).
  split; [exact Hmax|]. split; [exact Hr|]. split; [exact Hover|].
  split; [exact (proj1 (Htrim Hover))|].
  split; [exact Hmax'|]. split; [exact Hr'|]. split; [exact Hfit|].
  exact (Hnoop Hfit).
Defined.

(** A new key written and removed again, on the unbounded sample cache and
    on the full bounded one. *)
Lemma SetWithTTL_then_Remove_witness :
  range_of (items sample_cache) (map_to_list sample_items) ∧
  items sample_cache !! "new" = None ∧
  (0 < maxSize sample_bounded ≤ len (items (ws_cache sample_bounded)))%Z ∧
  Call.Remove "new"
    (Iface.SetWithTTL 1000 (map_to_list sample_items) "new" 9 60
       (Unsized (Build_cacheWithoutSize sample_cache)))
    = Unsized (Build_cacheWithoutSize sample_cache) ∧
  Iface.Size
    (Call.Remove "new"
       (Iface.SetWithTTL 1000 (map_to_list sample_items) "new" 9 60
          (Sized sample_bounded)))
    = (Iface.Size (Sized sample_bounded) - 1)%Z.
Proof.
  assert (range_of (items sample_cache) (map_to_list sample_items)) as Hr
    by range_by_computation.
  assert (items sample_cache !! "new" = None) as Hnew by reflexivity.
  assert (0 < maxSize sample_bounded ≤ len (items (ws_cache sample_bounded)))%Z
    as Hfull by (split; [reflexivity|vm_compute; discriminate]).
  destruct (SetWithTTL_then_Remove 1000 (map_to_list sample_items) "new" 9 60
              (Unsized (Build_cacheWithoutSize sample_cache)) Hr Hnew)
    as (Hback & _).
  destruct (SetWithTTL_then_Remove 1000 (map_to_list sample_items) "new" 9 60
              (Sized sample_bounded) Hr Hnew)
    as (_ & Hlost).
  split; [exact Hr|]. split; [exact Hnew|]. split; [exact Hfull|].
  split; [exact (Hback I)|exact (proj1 (Hlost Hfull))].
Defined.
